(** * Readers-writers lock of [concurrency/reader-writer]

    A shallow embedding of [ReadersWriters]
    (src/concurrency/reader-writer/src/reader_writer/reader_writer.py)
    and the properties its specification states about it.

    Python integers are unbounded, so the counters are [Z].  The mutex makes
    the body of every [with self._mutex:] block atomic except at
    [Condition.wait()], where the mutex is released: the two blocking
    operations are therefore split at their wait loop into an "enter" part
    and a "proceed" part, and the concurrent behaviour is the interleaving of
    these atomic parts by the threads of the process. *)

From Stdlib Require Import ZArith Lia Bool String Ascii DecimalString.
From stdpp Require Import base option list.

Open Scope Z_scope.

(** ** The lock state *)

(** The instance attributes set by [ReadersWriters.__init__], apart from the
    mutex and its two condition variables, which have no value of their
    own. *)
Record LockState : Type := mkLockState {
  active_readers : Z;
  waiting_readers : Z;
  is_writing : bool;
  waiting_writers : Z;
  shared_resource : Z
}.

(** [ReadersWriters.__init__] *)
Definition init : LockState :=
  {| active_readers := 0;
     waiting_readers := 0;
     is_writing := false;
     waiting_writers := 0;
     shared_resource := 0 |}.

Definition set_active_readers (v : Z) (s : LockState) : LockState :=
  {| active_readers := v;
     waiting_readers := waiting_readers s;
     is_writing := is_writing s;
     waiting_writers := waiting_writers s;
     shared_resource := shared_resource s |}.

Definition set_waiting_readers (v : Z) (s : LockState) : LockState :=
  {| active_readers := active_readers s;
     waiting_readers := v;
     is_writing := is_writing s;
     waiting_writers := waiting_writers s;
     shared_resource := shared_resource s |}.

Definition set_is_writing (v : bool) (s : LockState) : LockState :=
  {| active_readers := active_readers s;
     waiting_readers := waiting_readers s;
     is_writing := v;
     waiting_writers := waiting_writers s;
     shared_resource := shared_resource s |}.

Definition set_waiting_writers (v : Z) (s : LockState) : LockState :=
  {| active_readers := active_readers s;
     waiting_readers := waiting_readers s;
     is_writing := is_writing s;
     waiting_writers := v;
     shared_resource := shared_resource s |}.

Definition set_shared_resource (v : Z) (s : LockState) : LockState :=
  {| active_readers := active_readers s;
     waiting_readers := waiting_readers s;
     is_writing := is_writing s;
     waiting_writers := waiting_writers s;
     shared_resource := v |}.

(** ** Condition variables *)

(** The two [Condition] objects built over the one mutex. *)
Inductive cv : Type := read_cv | write_cv.

(** A call made on a condition variable: [notify()] wakes at most one thread
    waiting on it, [notify_all()] wakes all of them. *)
Inductive signal : Type :=
| notify (c : cv)
| notify_all (c : cv).

(** ** The four core operations *)

(** The condition of the [while] loop of [start_read]:
    [self._is_writing or self._waiting_writers > 0]. *)
Definition read_must_wait (s : LockState) : bool :=
  is_writing s || (0 <? waiting_writers s).

(** The condition of the [while] loop of [start_write]:
    [self._is_writing or self._active_readers > 0]. *)
Definition write_must_wait (s : LockState) : bool :=
  is_writing s || (0 <? active_readers s).

(** [start_read], up to its loop: [self._waiting_readers += 1]. *)
Definition start_read_enter (s : LockState) : LockState :=
  set_waiting_readers (waiting_readers s + 1) s.

(** [start_read], after its loop:
    [self._waiting_readers -= 1; self._active_readers += 1]. *)
Definition start_read_proceed (s : LockState) : LockState :=
  let s1 := set_waiting_readers (waiting_readers s - 1) s in
  set_active_readers (active_readers s1 + 1) s1.

(** [start_write], up to its loop: [self._waiting_writers += 1]. *)
Definition start_write_enter (s : LockState) : LockState :=
  set_waiting_writers (waiting_writers s + 1) s.

(** [start_write], after its loop:
    [self._waiting_writers -= 1; self._is_writing = True]. *)
Definition start_write_proceed (s : LockState) : LockState :=
  let s1 := set_waiting_writers (waiting_writers s - 1) s in
  set_is_writing true s1.

(** What a call does when no other thread runs: it returns [None] (the
    methods have no [return] statement and raise nothing), leaving a state
    behind, or it is parked in [Condition.wait()], which has no timeout, in
    the state it reached. *)
Inductive outcome : Type :=
| Returned (s : LockState)
| Blocked (s : LockState).

(** [start_read]: the loop is left at once when its condition is false;
    otherwise the caller waits on [_read_cv] with the state unchanged since
    the increment. *)
Definition start_read (s : LockState) : outcome :=
  let s1 := start_read_enter s in
  if read_must_wait s1 then Blocked s1
  else Returned (start_read_proceed s1).

(** [end_read]: [self._active_readers -= 1], then [self._write_cv.notify()]
    if the counter is now [0]. *)
Definition end_read (s : LockState) : LockState * list signal :=
  let s1 := set_active_readers (active_readers s - 1) s in
  if active_readers s1 =? 0 then (s1, [notify write_cv]) else (s1, []).

(** [start_write] *)
Definition start_write (s : LockState) : outcome :=
  let s1 := start_write_enter s in
  if write_must_wait s1 then Blocked s1
  else Returned (start_write_proceed s1).

(** [end_write]: [self._is_writing = False], then [self._write_cv.notify()]
    if a writer is waiting and [self._read_cv.notify_all()] otherwise. *)
Definition end_write (s : LockState) : LockState * list signal :=
  let s1 := set_is_writing false s in
  if 0 <? waiting_writers s1 then (s1, [notify write_cv])
  else (s1, [notify_all read_cv]).


(** Whether a call was left waiting. *)
Definition blocks (o : outcome) : bool :=
  match o with
  | Returned _ => false
  | Blocked _ => true
  end.

(** ** The two convenience methods *)

(** [LogLevel] of [reader_writer.utils]. *)
Inductive LogLevel : Type := INFO | WARNING | ERROR | DEBUG.

(** What a method does besides updating the lock state: a message handed to
    the logger, a [time.sleep] (in milliseconds), a call on a condition
    variable. *)
Inductive effect : Type :=
| Log (level : LogLevel) (message : string)
| Sleep (ms : Z)
| Signal (sg : signal).

(** The two guard classes, local to [read_resource] and [write_resource]:
    [__init__] takes the lock, [__del__] gives it back. *)
Inductive guard : Type := ReadLock | WriteLock.

(** The lock; the effects performed so far, oldest first, each recorded
    with the lock state in force when it was performed; and the guards that
    are alive though the call that made them has ended: their [__del__] has
    not run yet. *)
Record World : Type := mkWorld {
  lock : LockState;
  history : list (effect * LockState);
  guards : list guard
}.

(** The exceptions that the code meets. *)
Inductive exn : Type := ValueError | IndexError.

(** A method body runs to its end, or is parked for ever in a [wait()], or
    is left by an exception. *)
Inductive result (A : Type) : Type :=
| Done (a : A) (w : World)
| Stuck (w : World)
| Raised (e : exn) (w : World).
Arguments Done {A} a w.
Arguments Stuck {A} w.
Arguments Raised {A} e w.

Definition M (A : Type) : Type := World -> result A.

#[export] Instance M_ret : MRet M := fun A (a : A) (w : World) => Done a w.

#[export] Instance M_bind : MBind M :=
  fun A B (k : A -> M B) (m : M A) (w : World) =>
    match m w with
    | Done a w' => k a w'
    | Stuck w' => Stuck w'
    | Raised e w' => Raised e w'
    end.

Definition raise {A : Type} (e : exn) : M A := fun w => Raised e w.

Definition get_lock : M LockState := fun w => Done (lock w) w.

Definition put_lock (s : LockState) : M unit :=
  fun w => Done tt {| lock := s; history := history w; guards := guards w |}.

Definition perform (e : effect) : M unit :=
  fun w => Done tt {| lock := lock w;
                      history := history w ++ [(e, lock w)];
                      guards := guards w |}.

(** A blocking operation of the lock, as a step of a method body. *)
Definition blocking (op : LockState -> outcome) : M unit :=
  fun w =>
    match op (lock w) with
    | Returned s =>
        Done tt {| lock := s; history := history w; guards := guards w |}
    | Blocked s =>
        Stuck {| lock := s; history := history w; guards := guards w |}
    end.

(** A releasing operation of the lock: the state is updated, then the
    condition variable is signalled. *)
Definition releasing (op : LockState -> LockState * list signal) : M unit :=
  fun w =>
    let (s, sigs) := op (lock w) in
    Done tt {| lock := s;
               history := history w ++ map (fun sg => (Signal sg, s)) sigs;
               guards := guards w |}.

(** [sys.int_info.default_max_str_digits]: an [int] of more decimal digits
    is not turned into a string, by [str] or in an f-string; the conversion
    raises [ValueError]. *)
Definition int_max_str_digits : Z := 4300.

Definition printable (z : Z) : bool := Z.abs z <? 10 ^ int_max_str_digits.
Arguments printable : simpl never.

(** The decimal numeral of an integer. *)
Definition numeral (z : Z) : string := NilZero.string_of_int (Z.to_int z).

(** [str(z)], and [{z}] in an f-string, of a Python integer. *)
Definition str (z : Z) : M string :=
  fun w => if printable z then Done (numeral z) w else Raised ValueError w.

(** [thread_id_to_string] is [str(threading.get_ident())]; the identifier of
    the calling thread is an argument here. *)
Definition thread_id_to_string (ident : Z) : M string := str ident.

(** What the two methods depend on in the logger they are handed, besides
    the message it is given: whether its [log] leaves a reference to the
    frame of its caller behind, as a logger that looks at the frames of its
    callers can.  ([Logger.log] of [reader_writer.utils] passes the message
    to [ic] of the icecream package, which is not part of the repository
    and does look at them.) *)
Record Logger : Type := mkLogger {
  keeps_frame : bool
}.

(** [ReadLock.__init__] and [ReadLock.__del__] ([NonCopyable.__init__] is
    [pass]). *)
Definition ReadLock_init : M unit := blocking start_read.
Definition ReadLock_del : M unit := releasing end_read.

(** [WriteLock.__init__] and [WriteLock.__del__]. *)
Definition WriteLock_init : M unit := blocking start_write.
Definition WriteLock_del : M unit := releasing end_write.

Definition guard_init (g : guard) : M unit :=
  match g with
  | ReadLock => ReadLock_init
  | WriteLock => WriteLock_init
  end.

Definition guard_del (g : guard) : M unit :=
  match g with
  | ReadLock => ReadLock_del
  | WriteLock => WriteLock_del
  end.

(** The guard outlives the call. *)
Definition outlives (g : guard) : M unit :=
  fun w => Done tt {| lock := lock w; history := history w;
                      guards := g :: guards w |}.

(** [_ = Guard(self)] followed by the rest of the method.  The guard is
    referenced by the local [_] alone, and there is no [try], [finally] or
    [with]: the lock is given back by [__del__] and by nothing else.
    CPython finalises the guard when the frame of the call is freed.  That
    is at once when the call returns and nothing else refers to the frame.
    It is later when the call is left by an exception, whose traceback
    refers to the frame, and when the logger that the body called has kept
    a reference to it: the call then ends with the guard alive and the lock
    still held. *)
Definition with_guard {A : Type} (logger : Logger) (g : guard) (body : M A)
  : M A :=
  fun w =>
    match guard_init g w with
    | Done _ w1 =>
        match body w1 with
        | Done a w2 =>
            if keeps_frame logger then (outlives g ;; mret a) w2
            else (guard_del g ;; mret a) w2
        | Stuck w2 => (outlives g ;; Stuck) w2
        | Raised e w2 => (outlives g ;; raise e) w2
        end
    | Stuck w1 => Stuck w1
    | Raised e w1 => Raised e w1
    end.

(** The guard at position [i] among those alive is finalised at last: its
    [__del__] runs. *)
Definition finalize (i : nat) : M unit :=
  fun w =>
    match guards w !! i with
    | Some g => guard_del g {| lock := lock w; history := history w;
                               guards := delete i (guards w) |}
    | None => Done tt w
    end.

(** [read_resource(logger)], called by the thread [ident]. *)
Definition read_resource (logger : Logger) (ident : Z) : M unit :=
  with_guard logger ReadLock
    (tid ← thread_id_to_string ident ;
     s ← get_lock ;
     value ← str (shared_resource s) ;
     perform (Log INFO ("Thread " ++ tid ++ " reading resource: " ++ value)) ;;
     perform (Sleep 100)).

(** [write_resource(value, logger)], called by the thread [ident]. *)
Definition write_resource (logger : Logger) (ident : Z) (value : Z) : M unit :=
  with_guard logger WriteLock
    (s ← get_lock ;
     put_lock (set_shared_resource value s) ;;
     tid ← thread_id_to_string ident ;
     written ← str value ;
     perform (Log INFO ("Thread " ++ tid ++ " wrote resource: " ++ written)) ;;
     perform (Sleep 200)).

(** A fresh instance, nothing done yet. *)
Definition fresh : World := {| lock := init; history := []; guards := [] |}.

(** ** Threads sharing one lock *)

(** Where a thread stands with respect to the lock. *)
Inductive pc : Type :=
| Idle
| WaitingToRead
| Reading
| WaitingToWrite
| Writing.

#[export] Instance pc_eq_dec : EqDecision pc.
Proof. solve_decision. Defined.

(** The atomic parts of the four operations: what a thread does between two
    points at which it lets go of the mutex. *)
Inductive action : Type :=
| EnterRead
| AcquireRead
| EndRead
| EnterWrite
| AcquireWrite
| EndWrite.

#[export] Instance action_eq_dec : EqDecision action.
Proof. solve_decision. Defined.

(** The lock and the threads that use it; a thread is named by its index. *)
Record sys : Type := mkSys {
  sys_lock : LockState;
  sys_threads : list pc
}.

(** [n] threads around a new lock. *)
Definition init_sys (n : nat) : sys :=
  {| sys_lock := init; sys_threads := replicate n Idle |}.

(** One atomic part, run by thread [t].  A thread calls an operation when it
    is idle and releases what it holds; it leaves the loop of [start_read]
    or [start_write] only when the loop condition is false, whatever woke it
    up.  [None]: the thread cannot take this step now. *)
Definition step (σ : sys) (t : nat) (a : action) : option sys :=
  let l := sys_lock σ in
  let move (l' : LockState) (p : pc) :=
    Some {| sys_lock := l'; sys_threads := <[t := p]> (sys_threads σ) |} in
  match sys_threads σ !! t with
  | None => None
  | Some p =>
      match p, a with
      | Idle, EnterRead => move (start_read_enter l) WaitingToRead
      | WaitingToRead, AcquireRead =>
          if read_must_wait l then None
          else move (start_read_proceed l) Reading
      | Reading, EndRead => move (fst (end_read l)) Idle
      | Idle, EnterWrite => move (start_write_enter l) WaitingToWrite
      | WaitingToWrite, AcquireWrite =>
          if write_must_wait l then None
          else move (start_write_proceed l) Writing
      | Writing, EndWrite => move (fst (end_write l)) Idle
      | _, _ => None
      end
  end.

(** A schedule: which thread runs which part, in order. *)
Fixpoint run (σ : sys) (tr : list (nat * action)) : option sys :=
  match tr with
  | [] => Some σ
  | (t, a) :: tr' =>
      match step σ t a with
      | Some σ' => run σ' tr'
      | None => None
      end
  end.

(** How many threads stand at [p]. *)
Fixpoint count_pc (p : pc) (thr : list pc) : Z :=
  match thr with
  | [] => 0
  | q :: thr' => (if decide (q = p) then 1 else 0) + count_pc p thr'
  end.

(** How many operations thread [t] has begun, and how many releases it has
    made, in a schedule. *)
Definition begins (t : nat) (x : nat * action) : bool :=
  bool_decide (x = (t, EnterRead)) || bool_decide (x = (t, EnterWrite)).

Definition releases (t : nat) (x : nat * action) : bool :=
  bool_decide (x = (t, EndRead)) || bool_decide (x = (t, EndWrite)).

Definition count_if {A : Type} (f : A -> bool) (l : list A) : Z :=
  Z.of_nat (length (List.filter f l)).

(** Every operation begun in the schedule is released in it, thread by
    thread. *)
Definition paired (n : nat) (tr : list (nat * action)) : bool :=
  forallb (fun t => count_if (begins t) tr =? count_if (releases t) tr)
          (seq 0 n).

(** The lock state that the invariants speak of. *)
Record consistent (s : LockState) : Prop := mkConsistent {
  writer_excludes_readers : is_writing s = true -> active_readers s = 0;
  active_readers_nonneg : 0 <= active_readers s;
  waiting_readers_nonneg : 0 <= waiting_readers s;
  waiting_writers_nonneg : 0 <= waiting_writers s
}.

(** The counters count the threads. *)
Record linked (σ : sys) : Prop := mkLinked {
  linked_active : active_readers (sys_lock σ) = count_pc Reading (sys_threads σ);
  linked_waiting_r :
    waiting_readers (sys_lock σ) = count_pc WaitingToRead (sys_threads σ);
  linked_waiting_w :
    waiting_writers (sys_lock σ) = count_pc WaitingToWrite (sys_threads σ);
  linked_writing :
    (if is_writing (sys_lock σ) then 1 else 0) = count_pc Writing (sys_threads σ);
  linked_excl : is_writing (sys_lock σ) = true -> active_readers (sys_lock σ) = 0
}.

(** ** Threads, with the wake-ups that the code sends *)

(** Where a thread stands when the condition variables are followed too: a
    thread inside [start_read] or [start_write] is either parked in
    [Condition.wait()], on the condition variable [c], or has been woken by
    a [notify] and is about to take the mutex again and test its loop
    condition. *)
Inductive tstate : Type :=
| TIdle
| TParked (c : cv)
| TAwake (c : cv)
| TReading
| TWriting.

#[export] Instance cv_eq_dec : EqDecision cv.
Proof. solve_decision. Defined.

#[export] Instance tstate_eq_dec : EqDecision tstate.
Proof. solve_decision. Defined.

(** What a thread does while it has the mutex.  [notify()] wakes one of the
    threads parked on the condition variable, no matter which: the call
    that may issue it names the one that is woken. *)
Inductive ncall : Type :=
| CallStartRead
| CallStartWrite
| WakeUp
| CallEndRead (woken : nat)
| CallEndWrite (woken : nat).

Record nsys : Type := mkNsys {
  nlock : LockState;
  nthreads : list tstate
}.

Definition ninit (n : nat) : nsys :=
  {| nlock := init; nthreads := replicate n TIdle |}.

(** [notify_all()] on [c]: every thread parked on [c] is woken. *)
Definition wake_all (c : cv) (thr : list tstate) : list tstate :=
  (fun st => if decide (st = TParked c) then TAwake c else st) <$> thr.

Definition someone_parked (c : cv) (thr : list tstate) : bool :=
  existsb (fun st => bool_decide (st = TParked c)) thr.

(** [notify()] on [c]: nothing happens when no thread is parked on [c];
    otherwise the thread [woken], which must be one of them, is woken. *)
Definition wake_one (c : cv) (woken : nat) (thr : list tstate)
  : option (list tstate) :=
  if someone_parked c thr then
    match thr !! woken with
    | Some st => if decide (st = TParked c)
                 then Some (<[woken := TAwake c]> thr) else None
    | None => None
    end
  else Some thr.

(** The calls on condition variables made by one operation, in order. *)
Fixpoint deliver (sigs : list signal) (woken : nat) (thr : list tstate)
  : option (list tstate) :=
  match sigs with
  | [] => Some thr
  | notify c :: sigs' =>
      match wake_one c woken thr with
      | Some thr' => deliver sigs' woken thr'
      | None => None
      end
  | notify_all c :: sigs' => deliver sigs' woken (wake_all c thr)
  end.

(** A blocking operation, entered or resumed by thread [t] waiting on [c]:
    the thread holds the lock as [held] if the operation goes through and
    is parked on [c] otherwise. *)
Definition settle (o : outcome) (t : nat) (c : cv) (held : tstate)
    (thr : list tstate) : nsys :=
  match o with
  | Returned l' => {| nlock := l'; nthreads := <[t := held]> thr |}
  | Blocked l' => {| nlock := l'; nthreads := <[t := TParked c]> thr |}
  end.

(** A thread that wakes in the loop of [start_read] tests the condition
    again, with the counters as they are. *)
Definition resume_read (l : LockState) : outcome :=
  if read_must_wait l then Blocked l else Returned (start_read_proceed l).

Definition resume_write (l : LockState) : outcome :=
  if write_must_wait l then Blocked l else Returned (start_write_proceed l).

(** One stretch of thread [t] holding the mutex. *)
Definition nstep (σ : nsys) (t : nat) (a : ncall) : option nsys :=
  let l := nlock σ in
  let thr := nthreads σ in
  match thr !! t with
  | None => None
  | Some st =>
      match st, a with
      | TIdle, CallStartRead => Some (settle (start_read l) t read_cv TReading thr)
      | TIdle, CallStartWrite =>
          Some (settle (start_write l) t write_cv TWriting thr)
      | TAwake read_cv, WakeUp =>
          Some (settle (resume_read l) t read_cv TReading thr)
      | TAwake write_cv, WakeUp =>
          Some (settle (resume_write l) t write_cv TWriting thr)
      | TReading, CallEndRead woken =>
          match deliver (snd (end_read l)) woken (<[t := TIdle]> thr) with
          | Some thr' => Some {| nlock := fst (end_read l); nthreads := thr' |}
          | None => None
          end
      | TWriting, CallEndWrite woken =>
          match deliver (snd (end_write l)) woken (<[t := TIdle]> thr) with
          | Some thr' => Some {| nlock := fst (end_write l); nthreads := thr' |}
          | None => None
          end
      | _, _ => None
      end
  end.

Fixpoint nrun (σ : nsys) (tr : list (nat * ncall)) : option nsys :=
  match tr with
  | [] => Some σ
  | (t, a) :: tr' =>
      match nstep σ t a with
      | Some σ' => nrun σ' tr'
      | None => None
      end
  end.

(** Forgetting who is parked and who is awake. *)
Definition forget (st : tstate) : pc :=
  match st with
  | TIdle => Idle
  | TParked read_cv | TAwake read_cv => WaitingToRead
  | TParked write_cv | TAwake write_cv => WaitingToWrite
  | TReading => Reading
  | TWriting => Writing
  end.

Definition coarse (σ : nsys) : sys :=
  {| sys_lock := nlock σ; sys_threads := forget <$> nthreads σ |}.

(** How far a thread is from being idle again: a thread inside [start_read]
    or [start_write] has to get the lock and to give it back, a thread that
    holds the lock has to give it back. *)
Definition load (st : tstate) : nat :=
  match st with
  | TIdle => 0
  | TParked _ | TAwake _ => 2
  | TReading | TWriting => 1
  end.

Definition total_load (thr : list tstate) : nat := sum_list (load <$> thr).

(** The call begins an operation: it is [start_read] or [start_write]. *)
Definition is_start (a : ncall) : bool :=
  match a with
  | CallStartRead | CallStartWrite => true
  | WakeUp | CallEndRead _ | CallEndWrite _ => false
  end.

(** No thread is parked without a thread that will wake it, or that is
    awake already: a parked writer has the lock held by some thread, or a
    writer awake beside it; a parked reader has a writer holding the lock
    or waiting for it. *)
Record attended (σ : nsys) : Prop := mkAttended {
  attended_writer :
    forall u : nat, nthreads σ !! u = Some (TParked write_cv) ->
      is_writing (nlock σ) = true \/ 0 < active_readers (nlock σ) \/
      exists v : nat, nthreads σ !! v = Some (TAwake write_cv);
  attended_reader :
    forall u : nat, nthreads σ !! u = Some (TParked read_cv) ->
      is_writing (nlock σ) = true \/ 0 < waiting_writers (nlock σ)
}.

(** ** [SharedDatabase] of [examples/advanced_usage.py] *)

(** The records of the database, its lock together with what has been
    logged, and its logger. *)
Record SharedDatabase : Type := mkSharedDatabase {
  records : list string;
  readers_writers : World;
  logger : Logger
}.

(** [SharedDatabase(logger=lg)]: no record, a new lock.  (The default
    logger is [Logger.get_instance()].) *)
Definition new_database (lg : Logger) : SharedDatabase :=
  {| records := []; readers_writers := fresh; logger := lg |}.

(** A method of the database returns, or is parked for ever inside the
    lock, or is left by an exception. *)
Inductive db_result (A : Type) : Type :=
| Finished (a : A) (db : SharedDatabase)
| Halted (db : SharedDatabase)
| Failed (e : exn) (db : SharedDatabase).
Arguments Finished {A} a db.
Arguments Halted {A} db.
Arguments Failed {A} e db.

Definition DB (A : Type) : Type := SharedDatabase -> db_result A.

#[export] Instance DB_ret : MRet DB :=
  fun A (a : A) (db : SharedDatabase) => Finished a db.

#[export] Instance DB_bind : MBind DB :=
  fun A B (k : A -> DB B) (m : DB A) (db : SharedDatabase) =>
    match m db with
    | Finished a db' => k a db'
    | Halted db' => Halted db'
    | Failed e db' => Failed e db'
    end.

(** What is done on [self.readers_writers] or with [self.logger], and the
    conversions of integers in f-strings. *)
Definition on_lock {A : Type} (m : M A) : DB A :=
  fun db =>
    let put w := {| records := records db; readers_writers := w;
                    logger := logger db |} in
    match m (readers_writers db) with
    | Done a w => Finished a (put w)
    | Stuck w => Halted (put w)
    | Raised e w => Failed e (put w)
    end.

Definition logger_log (level : LogLevel) (message : string) : DB unit :=
  on_lock (perform (Log level message)).

Definition get_records : DB (list string) := fun db => Finished (records db) db.

Definition get_logger : DB Logger := fun db => Finished (logger db) db.

(** [self.records.append(record)]. *)
Definition records_append (record : string) : DB unit :=
  fun db => Finished tt {| records := records db ++ [record];
                           readers_writers := readers_writers db;
                           logger := logger db |}.

(** [self.records[i]]: a negative index counts from the end of the list, an
    index outside the list raises [IndexError]. *)
Definition records_getitem (i : Z) : DB string :=
  fun db =>
    let j := if 0 <=? i then i else i + Z.of_nat (length (records db)) in
    if 0 <=? j then
      match records db !! Z.to_nat j with
      | Some record => Finished record db
      | None => Failed IndexError db
      end
    else Failed IndexError db.

(** [add_record(record)], called by the thread [ident]. *)
Definition add_record (ident : Z) (record : string) : DB unit :=
  rs ← get_records ;
  lg ← get_logger ;
  on_lock (write_resource lg ident (Z.of_nat (length rs))) ;;
  records_append record ;;
  logger_log INFO ("Added record: " ++ record).

(** [get_record(index)]; Python's [None] is [None]. *)
Definition get_record (ident : Z) (index : Z) : DB (option string) :=
  lg ← get_logger ;
  on_lock (read_resource lg ident) ;;
  rs ← get_records ;
  if (0 <=? index) && (index <? Z.of_nat (length rs)) then
    (record ← records_getitem index ;
     at_index ← on_lock (str index) ;
     logger_log INFO ("Read record at index " ++ at_index ++ ": " ++ record) ;;
     mret (Some record))
  else
    (at_index ← on_lock (str index) ;
     logger_log WARNING ("Invalid record index: " ++ at_index) ;;
     mret None).

(** [get_record_count()]. *)
Definition get_record_count (ident : Z) : DB Z :=
  lg ← get_logger ;
  on_lock (read_resource lg ident) ;;
  rs ← get_records ;
  let count := Z.of_nat (length rs) in
  counted ← on_lock (str count) ;
  logger_log INFO ("Current record count: " ++ counted) ;;
  mret count.

(** [add_record] for each record of a list in turn, as the loop that fills
    the database in [advanced_example] does. *)
Fixpoint add_records (ident : Z) (rs : list string) : DB unit :=
  match rs with
  | [] => mret tt
  | record :: rs' => add_record ident record ;; add_records ident rs'
  end.

(** ** The [Logger] singleton of [reader_writer.utils] *)

(** The class attributes [Logger._instance] and [Logger._lock], and the
    [Logger] objects made so far.  An object is known by its number,
    [objects] is how many [super().__new__(cls)] has made, [initialized]
    lists the objects on which [_initialize] has run. *)
Record LoggerClass : Type := mkLoggerClass {
  Logger_instance : option nat;
  Logger_lock : bool;
  objects : nat;
  initialized : list nat
}.

Definition Logger_class : LoggerClass :=
  {| Logger_instance := None; Logger_lock := false;
     objects := 0; initialized := [] |}.

(** Where a thread stands in a call of [Logger.get_instance()] or of
    [Logger()], which is [Logger.__new__(Logger)]: the class has no
    [__init__] of its own.  A value returned is an object or [None]. *)
Inductive lpc : Type :=
| AtGetInstance                 (* about to test [cls._instance is None] *)
| AtReturnInstance              (* about to [return cls._instance] *)
| AtNew                         (* about to enter [with cls._lock] *)
| AtTest                        (* in [__new__], about to test [cls._instance] *)
| AtStore (o : nat)             (* [o] made, about to assign [cls._instance] *)
| AtInitialize                  (* about to call [cls._instance._initialize()] *)
| AtReturn                      (* about to evaluate [return cls._instance] *)
| AtRelease (r : option nat)    (* about to leave the [with] block *)
| Got (r : option nat).         (* the call has returned [r] *)

(** How a thread gets at the logger. *)
Inductive entry : Type := ViaGetInstance | ViaConstructor.

Definition enter (e : entry) : lpc :=
  match e with
  | ViaGetInstance => AtGetInstance
  | ViaConstructor => AtNew
  end.

Record lsys : Type := mkLsys {
  lclass : LoggerClass;
  lthreads : list lpc
}.

Definition linit (es : list entry) : lsys :=
  {| lclass := Logger_class; lthreads := enter <$> es |}.

(** The next step of thread [t]; [None] when it has none: it waits for
    [cls._lock], or has returned. *)
Definition lstep (σ : lsys) (t : nat) : option lsys :=
  let c := lclass σ in
  let move (c' : LoggerClass) (p : lpc) :=
    Some {| lclass := c'; lthreads := <[t := p]> (lthreads σ) |} in
  match lthreads σ !! t with
  | None => None
  | Some p =>
      match p with
      | AtGetInstance =>
          match Logger_instance c with
          | None => move c AtNew
          | Some _ => move c AtReturnInstance
          end
      | AtReturnInstance => move c (Got (Logger_instance c))
      | AtNew =>
          if Logger_lock c then None
          else move {| Logger_instance := Logger_instance c;
                       Logger_lock := true;
                       objects := objects c;
                       initialized := initialized c |} AtTest
      | AtTest =>
          match Logger_instance c with
          | None => move {| Logger_instance := None;
                            Logger_lock := Logger_lock c;
                            objects := S (objects c);
                            initialized := initialized c |}
                         (AtStore (objects c))
          | Some _ => move c AtReturn
          end
      | AtStore o =>
          move {| Logger_instance := Some o;
                  Logger_lock := Logger_lock c;
                  objects := objects c;
                  initialized := initialized c |} AtInitialize
      | AtInitialize =>
          match Logger_instance c with
          | Some o => move {| Logger_instance := Some o;
                              Logger_lock := Logger_lock c;
                              objects := objects c;
                              initialized := initialized c ++ [o] |} AtReturn
          | None => None
          end
      | AtReturn => move c (AtRelease (Logger_instance c))
      | AtRelease r =>
          move {| Logger_instance := Logger_instance c;
                  Logger_lock := false;
                  objects := objects c;
                  initialized := initialized c |} (Got r)
      | Got _ => None
      end
  end.

Fixpoint lrun (σ : lsys) (tr : list nat) : option lsys :=
  match tr with
  | [] => Some σ
  | t :: tr' =>
      match lstep σ t with
      | Some σ' => lrun σ' tr'
      | None => None
      end
  end.

(** The thread is inside [with cls._lock]. *)
Definition holds (p : lpc) : bool :=
  match p with
  | AtTest | AtStore _ | AtInitialize | AtReturn | AtRelease _ => true
  | AtGetInstance | AtReturnInstance | AtNew | Got _ => false
  end.

(** How far the making of the one logger has got; the thread that makes it
    holds [cls._lock] until it is ready. *)
Inductive phase : Type := Unmade | Made | Stored | Ready.

Definition in_phase (ph : phase) (c : LoggerClass) : Prop :=
  match ph with
  | Unmade => Logger_instance c = None /\ objects c = 0%nat /\
              initialized c = []
  | Made => Logger_instance c = None /\ objects c = 1%nat /\
            initialized c = [] /\ Logger_lock c = true
  | Stored => Logger_instance c = Some 0%nat /\ objects c = 1%nat /\
              initialized c = [] /\ Logger_lock c = true
  | Ready => Logger_instance c = Some 0%nat /\ objects c = 1%nat /\
             initialized c = [0%nat]
  end.

(** Where a thread can stand in each phase. *)
Definition allowed (ph : phase) (p : lpc) : bool :=
  match p, ph with
  | AtGetInstance, _ | AtNew, _ => true
  | AtTest, (Unmade | Ready) => true
  | AtStore o, Made => bool_decide (o = 0%nat)
  | AtInitialize, Stored => true
  | AtReturn, Ready => true
  | AtRelease r, Ready => bool_decide (r = Some 0%nat)
  | AtReturnInstance, (Stored | Ready) => true
  | Got r, (Stored | Ready) => bool_decide (r = Some 0%nat)
  | _, _ => false
  end.

Definition sound (σ : lsys) : Prop :=
  exists ph : phase,
    in_phase ph (lclass σ) /\
    (forall (u : nat) (q : lpc),
        lthreads σ !! u = Some q ->
        allowed ph q = true /\
        (holds q = true -> Logger_lock (lclass σ) = true)) /\
    (forall (t u : nat) (p q : lpc),
        lthreads σ !! t = Some p -> lthreads σ !! u = Some q ->
        holds p = true -> holds q = true -> t = u).

(** * Properties *)

(** ** Counting threads *)

Lemma count_pc_nonneg (p : pc) (thr : list pc) : 0 <= count_pc p thr.
Proof.
  induction thr as [|q thr IH]; simpl; [lia|].
  destruct (decide (q = p)); lia.
Qed.

Lemma count_pc_replicate_other (p q : pc) (n : nat) :
  q <> p -> count_pc p (replicate n q) = 0.
Proof.
  intros Hne. induction n as [|n IH]; simpl; [reflexivity|].
  destruct (decide (q = p)); [contradiction|lia].
Qed.

(** Moving thread [t] from [q] to [r] takes one from the count of [q] and
    gives one to the count of [r]. *)
Lemma count_pc_insert (p q r : pc) (thr : list pc) (t : nat) :
  thr !! t = Some q ->
  count_pc p (<[t := r]> thr) =
  count_pc p thr - (if decide (q = p) then 1 else 0)
                 + (if decide (r = p) then 1 else 0).
Proof.
  revert t. induction thr as [|x thr IH]; intros [|t] Hq; simpl in *;
    try discriminate.
  - injection Hq as ->. lia.
  - rewrite (IH t Hq). lia.
Qed.

Lemma count_pc_lookup (p : pc) (thr : list pc) (t : nat) :
  thr !! t = Some p -> 1 <= count_pc p thr.
Proof.
  revert t. induction thr as [|x thr IH]; intros [|t] Hp; simpl in *;
    try discriminate.
  - injection Hp as ->. pose proof (count_pc_nonneg p thr).
    destruct (decide (p = p)); [lia|contradiction].
  - specialize (IH t Hp). destruct (decide (x = p)); lia.
Qed.

Lemma count_pc_zero (p : pc) (thr : list pc) (t : nat) :
  count_pc p thr = 0 -> thr !! t <> Some p.
Proof.
  intros Hz Hp. apply count_pc_lookup in Hp. lia.
Qed.

(** ** Steps *)

(** The cases of [step], one by one. *)
Lemma step_inv (σ σ' : sys) (t : nat) (a : action) :
  step σ t a = Some σ' ->
  exists p q l',
    sys_threads σ !! t = Some p /\
    σ' = {| sys_lock := l'; sys_threads := <[t := q]> (sys_threads σ) |} /\
    ((p = Idle /\ a = EnterRead /\ q = WaitingToRead /\
      l' = start_read_enter (sys_lock σ)) \/
     (p = WaitingToRead /\ a = AcquireRead /\ q = Reading /\
      read_must_wait (sys_lock σ) = false /\
      l' = start_read_proceed (sys_lock σ)) \/
     (p = Reading /\ a = EndRead /\ q = Idle /\
      l' = fst (end_read (sys_lock σ))) \/
     (p = Idle /\ a = EnterWrite /\ q = WaitingToWrite /\
      l' = start_write_enter (sys_lock σ)) \/
     (p = WaitingToWrite /\ a = AcquireWrite /\ q = Writing /\
      write_must_wait (sys_lock σ) = false /\
      l' = start_write_proceed (sys_lock σ)) \/
     (p = Writing /\ a = EndWrite /\ q = Idle /\
      l' = fst (end_write (sys_lock σ)))).
Proof.
  unfold step. intros H.
  destruct (sys_threads σ !! t) as [p|] eqn:Hp; [|discriminate].
  destruct p, a; try discriminate;
    try (destruct (read_must_wait (sys_lock σ)) eqn:Hg; try discriminate);
    try (destruct (write_must_wait (sys_lock σ)) eqn:Hg'; try discriminate);
    injection H as <-; eexists _, _, _; (split; [reflexivity|]);
    (split; [reflexivity|]); tauto.
Qed.

Lemma step_length (σ σ' : sys) (t : nat) (a : action) :
  step σ t a = Some σ' ->
  length (sys_threads σ') = length (sys_threads σ).
Proof.
  intros H. apply step_inv in H as (p & q & l' & _ & -> & _).
  simpl. apply length_insert.
Qed.

(** A step of [t] leaves the other threads where they are. *)
Lemma step_other (σ σ' : sys) (t u : nat) (a : action) :
  step σ t a = Some σ' -> t <> u ->
  sys_threads σ' !! u = sys_threads σ !! u.
Proof.
  intros H Hne. apply step_inv in H as (p & q & l' & _ & -> & _).
  simpl. by apply list_lookup_insert_ne.
Qed.

Lemma end_read_fst (s : LockState) :
  fst (end_read s) = set_active_readers (active_readers s - 1) s.
Proof. unfold end_read. simpl. by destruct (_ =? _). Qed.

Lemma end_write_fst (s : LockState) :
  fst (end_write s) = set_is_writing false s.
Proof. unfold end_write. simpl. by destruct (_ <? _). Qed.

Lemma read_may_proceed (s : LockState) :
  read_must_wait s = false <-> is_writing s = false /\ waiting_writers s <= 0.
Proof.
  unfold read_must_wait. rewrite orb_false_iff, Z.ltb_ge. tauto.
Qed.

Lemma write_may_proceed (s : LockState) :
  write_must_wait s = false <-> is_writing s = false /\ active_readers s <= 0.
Proof.
  unfold write_must_wait. rewrite orb_false_iff, Z.ltb_ge. tauto.
Qed.

(** ** The counters count the threads *)

Lemma linked_init (n : nat) : linked (init_sys n).
Proof.
  split; simpl; try (rewrite count_pc_replicate_other; [reflexivity|discriminate]).
  discriminate.
Qed.

Ltac count_step Hp :=
  repeat match goal with
         | |- context [count_pc ?p (<[ _ := ?r ]> _)] =>
             rewrite (count_pc_insert p _ r _ _ Hp)
         end;
  repeat match goal with
         | |- context [decide (?a = ?b)] =>
             destruct (decide (a = b)); try congruence
         end.

(** Every step keeps the counters equal to the number of threads in each
    state, and keeps a writer alone. *)
Lemma linked_step (σ σ' : sys) (t : nat) (a : action) :
  linked σ -> step σ t a = Some σ' -> linked σ'.
Proof.
  intros [Ha Hwr Hww Hw Hex] H.
  apply step_inv in H as (p & q & l' & Hp & -> & Hcase).
  pose proof (count_pc_lookup _ _ _ Hp) as Hone.
  destruct Hcase as
    [(-> & -> & -> & ->) | [(-> & -> & -> & Hg & ->) | [(-> & -> & -> & ->) |
    [(-> & -> & -> & ->) | [(-> & -> & -> & Hg & ->) | (-> & -> & -> & ->)]]]]].
  - split; simpl; count_step Hp; try lia; assumption.
  - apply read_may_proceed in Hg as [Hnw Hle].
    split; simpl; count_step Hp; try lia; try assumption.
    rewrite Hnw. discriminate.
  - rewrite end_read_fst.
    split; simpl; count_step Hp; try lia; try assumption.
    intros Hw'. specialize (Hex Hw'). lia.
  - split; simpl; count_step Hp; try lia; assumption.
  - apply write_may_proceed in Hg as [Hnw Hle].
    pose proof (count_pc_nonneg Reading (sys_threads σ)).
    rewrite Hnw in Hw.
    split; simpl; count_step Hp; try lia; try assumption.
  - rewrite end_write_fst.
    destruct (is_writing (sys_lock σ));
      split; simpl; count_step Hp; try lia; try assumption; discriminate.
Qed.

Lemma linked_run (tr : list (nat * action)) (σ σ' : sys) :
  linked σ -> run σ tr = Some σ' -> linked σ'.
Proof.
  revert σ. induction tr as [|[t a] tr IH]; intros σ Hl H; simpl in H.
  - by injection H as <-.
  - destruct (step σ t a) as [σ1|] eqn:Hs; [|discriminate].
    eauto using linked_step.
Qed.

Lemma linked_consistent (σ : sys) : linked σ -> consistent (sys_lock σ).
Proof.
  intros [Ha Hwr Hww Hw Hex].
  split; [assumption| | |]; rewrite ?Ha, ?Hwr, ?Hww; apply count_pc_nonneg.
Qed.

Lemma run_app (tr1 tr2 : list (nat * action)) (σ : sys) :
  run σ (tr1 ++ tr2) =
  match run σ tr1 with
  | Some σ1 => run σ1 tr2
  | None => None
  end.
Proof.
  revert σ. induction tr1 as [|[t a] tr1 IH]; intros σ; simpl; [reflexivity|].
  destruct (step σ t a); [apply IH|reflexivity].
Qed.

Lemma run_length (tr : list (nat * action)) (σ σ' : sys) :
  run σ tr = Some σ' -> length (sys_threads σ') = length (sys_threads σ).
Proof.
  revert σ. induction tr as [|[t a] tr IH]; intros σ H; simpl in H.
  - by injection H as <-.
  - destruct (step σ t a) as [σ1|] eqn:Hs; [|discriminate].
    rewrite (IH _ H). eauto using step_length.
Qed.

(** At most one thread is inside the writer critical section. *)
Lemma single_writer (n : nat) (tr : list (nat * action)) (σ : sys) (t u : nat) :
  run (init_sys n) tr = Some σ ->
  sys_threads σ !! t = Some Writing ->
  sys_threads σ !! u = Some Writing ->
  t = u.
Proof.
  intros Hrun Ht Hu.
  pose proof (linked_run _ _ _ (linked_init n) Hrun) as [_ _ _ Hw _].
  destruct (decide (t = u)) as [|Hne]; [assumption|exfalso].
  assert (Hu' : <[t := Idle]> (sys_threads σ) !! u = Some Writing)
    by (rewrite list_lookup_insert_ne; assumption).
  apply count_pc_lookup in Hu'.
  rewrite (count_pc_insert Writing Writing Idle _ _ Ht) in Hu'.
  destruct (decide (Writing = Writing)); [|congruence].
  destruct (decide (Idle = Writing)); [congruence|].
  destruct (is_writing (sys_lock σ)); lia.
Qed.

(** ** Mutual exclusion and non-negative counters *)

(** C1. In every state that the threads can reach from a new lock, taking
    the atomic parts of [start_read], [end_read], [start_write] and
    [end_write] in any order, each thread releasing only what it holds and
    leaving a wait loop only when the loop condition is false: a writer
    holding the lock means no active reader, and the three counters are not
    negative. *)
Theorem reachable_consistent (n : nat) (tr : list (nat * action)) (σ : sys) :
  run (init_sys n) tr = Some σ ->
  (is_writing (sys_lock σ) = true -> active_readers (sys_lock σ) = 0) /\
  0 <= active_readers (sys_lock σ) /\
  0 <= waiting_readers (sys_lock σ) /\
  0 <= waiting_writers (sys_lock σ).
Proof.
  intros Hrun.
  pose proof (linked_run _ _ _ (linked_init n) Hrun) as Hl.
  apply linked_consistent in Hl as [H1 H2 H3 H4]. auto.
Qed.

(** Two readers inside, a third thread waiting to write. *)
Lemma reachable_consistent_witness :
  let tr := [(0%nat, EnterRead); (1%nat, EnterRead); (0%nat, AcquireRead);
             (1%nat, AcquireRead); (2%nat, EnterWrite)] in
  let σ := {| sys_lock := {| active_readers := 2; waiting_readers := 0;
                             is_writing := false; waiting_writers := 1;
                             shared_resource := 0 |};
              sys_threads := [Reading; Reading; WaitingToWrite] |} in
  run (init_sys 3) tr = Some σ /\
  ((is_writing (sys_lock σ) = true -> active_readers (sys_lock σ) = 0) /\
   0 <= active_readers (sys_lock σ) /\
   0 <= waiting_readers (sys_lock σ) /\
   0 <= waiting_writers (sys_lock σ)).
Proof.
  intros tr σ. split; [reflexivity|].
  apply (reachable_consistent 3 tr σ). reflexivity.
Defined.

(** ** Writer preference *)

(** A thread waiting to write stays so until it takes its own
    [AcquireWrite] step. *)
Lemma waiting_writer_stays (tr : list (nat * action)) (σ σ' : sys) (w : nat) :
  run σ tr = Some σ' ->
  sys_threads σ !! w = Some WaitingToWrite ->
  ~ In (w, AcquireWrite) tr ->
  sys_threads σ' !! w = Some WaitingToWrite.
Proof.
  revert σ. induction tr as [|[u a] tr IH]; intros σ Hrun Hw Hnot; simpl in Hrun.
  - by injection Hrun as <-.
  - destruct (step σ u a) as [σ1|] eqn:Hs; [|discriminate].
    apply (IH σ1 Hrun); [|intros Hin; apply Hnot; by right].
    destruct (decide (u = w)) as [->|Hne].
    + exfalso. apply step_inv in Hs as (p & q & l' & Hp & _ & Hcase).
      rewrite Hw in Hp. injection Hp as <-.
      destruct Hcase as
        [(? & _) | [(? & _) | [(? & _) | [(? & _) | [(_ & -> & _) | (? & _)]]]]];
        try discriminate.
      apply Hnot. by left.
    + by rewrite (step_other _ _ _ _ _ Hs Hne).
Qed.

(** The only step that makes a waiting reader active is its own
    [AcquireRead], taken with the loop condition of [start_read] false. *)
Lemma reader_admitted (σ σ' : sys) (u r : nat) (a : action) :
  step σ u a = Some σ' ->
  sys_threads σ !! r = Some WaitingToRead ->
  sys_threads σ' !! r = Some Reading ->
  u = r /\ a = AcquireRead /\ read_must_wait (sys_lock σ) = false.
Proof.
  intros Hs Hr Hr'.
  destruct (decide (u = r)) as [->|Hne].
  - apply step_inv in Hs as (p & q & l' & Hp & _ & Hcase).
    rewrite Hr in Hp. injection Hp as <-.
    destruct Hcase as
      [(? & _) | [(_ & -> & _ & Hg & _) | [(? & _) | [(? & _) | [(? & _) | (? & _)]]]]];
      try discriminate.
    auto.
  - rewrite (step_other _ _ _ _ _ Hs Hne), Hr in Hr'. discriminate.
Qed.

(** C2. In a reachable state, a waiting reader becomes active only when no
    writer holds the lock and no writer is waiting: [is_writing] is false,
    [waiting_writers] is [0], and no thread is writing or waiting to write.
    Hence, from a state in which [w] waits to write, no reader acquires the
    lock before [w] has acquired it. *)
Theorem writer_preference (n : nat) (tr0 : list (nat * action)) (σ : sys) :
  run (init_sys n) tr0 = Some σ ->
  (forall (u r : nat) (a : action) (σ' : sys),
      step σ u a = Some σ' ->
      sys_threads σ !! r = Some WaitingToRead ->
      sys_threads σ' !! r = Some Reading ->
      is_writing (sys_lock σ) = false /\
      waiting_writers (sys_lock σ) = 0 /\
      forall w : nat, sys_threads σ !! w <> Some Writing /\
                      sys_threads σ !! w <> Some WaitingToWrite) /\
  (forall (w r : nat) (tr1 tr2 : list (nat * action)) (σ' : sys),
      sys_threads σ !! w = Some WaitingToWrite ->
      run σ (tr1 ++ (r, AcquireRead) :: tr2) = Some σ' ->
      In (w, AcquireWrite) tr1).
Proof.
  intros Hrun.
  pose proof (linked_run _ _ _ (linked_init n) Hrun) as Hl.
  split.
  - intros u r a σ' Hs Hr Hr'.
    destruct (reader_admitted _ _ _ _ _ Hs Hr Hr') as (_ & _ & Hg).
    apply read_may_proceed in Hg as [Hnw Hle].
    destruct Hl as [_ _ Hww Hw _].
    pose proof (count_pc_nonneg WaitingToWrite (sys_threads σ)).
    rewrite Hnw in Hw.
    split; [assumption|]. split; [lia|].
    intros w. split; apply count_pc_zero; lia.
  - intros w r tr1 tr2 σ' Hw Hrun'.
    destruct (In_dec (decide_rel (=)) (w, AcquireWrite) tr1) as [|Hnot];
      [assumption|exfalso].
    rewrite run_app in Hrun'.
    destruct (run σ tr1) as [σ1|] eqn:H1; [|discriminate].
    pose proof (waiting_writer_stays _ _ _ _ H1 Hw Hnot) as Hw1.
    pose proof (linked_run _ _ _ Hl H1) as [_ _ Hww _ _].
    apply count_pc_lookup in Hw1.
    simpl in Hrun'.
    destruct (step σ1 r AcquireRead) as [σ2|] eqn:Hs; [|discriminate].
    apply step_inv in Hs as (p & q & l' & _ & _ & Hcase).
    destruct Hcase as
      [(_ & ? & _) | [(_ & _ & _ & Hg & _) | [(_ & ? & _) | [(_ & ? & _) |
      [(_ & ? & _) | (_ & ? & _)]]]]]; try discriminate.
    apply read_may_proceed in Hg as [_ Hle]. lia.
Qed.

(** A reader holds the lock, a writer starts waiting, then a second reader
    starts waiting: the second reader gets in only after the writer. *)
Lemma writer_preference_witness :
  let tr0 := [(0%nat, EnterRead); (0%nat, AcquireRead); (1%nat, EnterWrite);
              (2%nat, EnterRead)] in
  let tr1 := [(0%nat, EndRead); (1%nat, AcquireWrite); (1%nat, EndWrite)] in
  run (init_sys 3) (tr0 ++ tr1 ++ [(2%nat, AcquireRead)]) =
    Some {| sys_lock := set_active_readers 1 init;
            sys_threads := [Idle; Idle; Reading] |} /\
  run (init_sys 3) (tr0 ++ [(2%nat, AcquireRead)]) = None /\
  In (1%nat, AcquireWrite) tr1.
Proof.
  intros tr0 tr1. split; [reflexivity|]. split; [reflexivity|].
  refine (proj2 (writer_preference 3 tr0
            {| sys_lock := {| active_readers := 1; waiting_readers := 1;
                              is_writing := false; waiting_writers := 1;
                              shared_resource := 0 |};
               sys_threads := [Reading; WaitingToWrite; WaitingToRead] |} _)
            1%nat 2%nat tr1 []
            {| sys_lock := set_active_readers 1 init;
               sys_threads := [Idle; Idle; Reading] |} _ _); reflexivity.
Defined.

(** ** The four operations, one call at a time *)

(** A call of [start_read] that does not wait is the thread's two steps
    taken together; likewise for [start_write]. *)
Lemma start_read_steps (σ : sys) (t : nat) (s' : LockState) :
  sys_threads σ !! t = Some Idle ->
  start_read (sys_lock σ) = Returned s' ->
  run σ [(t, EnterRead); (t, AcquireRead)] =
    Some {| sys_lock := s'; sys_threads := <[t := Reading]> (sys_threads σ) |}.
Proof.
  intros Ht. unfold start_read.
  destruct (read_must_wait (start_read_enter (sys_lock σ))) eqn:Hg; [discriminate|].
  intros [= <-]. simpl. unfold step at 1. rewrite Ht. simpl.
  unfold step. simpl.
  rewrite list_lookup_insert_eq by (by eapply lookup_lt_Some).
  rewrite Hg. by rewrite list_insert_insert_eq.
Qed.

Lemma start_write_steps (σ : sys) (t : nat) (s' : LockState) :
  sys_threads σ !! t = Some Idle ->
  start_write (sys_lock σ) = Returned s' ->
  run σ [(t, EnterWrite); (t, AcquireWrite)] =
    Some {| sys_lock := s'; sys_threads := <[t := Writing]> (sys_threads σ) |}.
Proof.
  intros Ht. unfold start_write.
  destruct (write_must_wait (start_write_enter (sys_lock σ))) eqn:Hg; [discriminate|].
  intros [= <-]. simpl. unfold step at 1. rewrite Ht. simpl.
  unfold step. simpl.
  rewrite list_lookup_insert_eq by (by eapply lookup_lt_Some).
  rewrite Hg. by rewrite list_insert_insert_eq.
Qed.

(** C3. When no writer holds the lock and none is waiting, [start_read]
    returns: [waiting_readers] went up by one and came back,
    [active_readers] is one more, and [is_writing], [waiting_writers] and
    [shared_resource] are as before. *)
Theorem start_read_contract (s : LockState) :
  is_writing s = false ->
  waiting_writers s = 0 ->
  exists s' : LockState,
    start_read s = Returned s' /\
    waiting_readers (start_read_enter s) = waiting_readers s + 1 /\
    s' = start_read_proceed (start_read_enter s) /\
    active_readers s' = active_readers s + 1 /\
    waiting_readers s' = waiting_readers s /\
    is_writing s' = is_writing s /\
    waiting_writers s' = waiting_writers s /\
    shared_resource s' = shared_resource s.
Proof.
  intros Hw Hq. eexists. unfold start_read, read_must_wait. simpl.
  rewrite Hw, Hq. simpl.
  repeat split; simpl; auto with zarith.
Qed.

Lemma start_read_contract_witness :
  exists s' : LockState,
    start_read (set_active_readers 2 init) = Returned s' /\
    waiting_readers (start_read_enter (set_active_readers 2 init)) = 0 + 1 /\
    s' = start_read_proceed (start_read_enter (set_active_readers 2 init)) /\
    active_readers s' = 2 + 1 /\
    waiting_readers s' = 0 /\
    is_writing s' = false /\
    waiting_writers s' = 0 /\
    shared_resource s' = 0.
Proof.
  apply (start_read_contract (set_active_readers 2 init)); reflexivity.
Defined.

(** C4. When no writer holds the lock and no reader is active,
    [start_write] returns: [waiting_writers] went up by one and came back,
    [is_writing] is true, and [active_readers], [waiting_readers] and
    [shared_resource] are as before. *)
Theorem start_write_contract (s : LockState) :
  is_writing s = false ->
  active_readers s = 0 ->
  exists s' : LockState,
    start_write s = Returned s' /\
    waiting_writers (start_write_enter s) = waiting_writers s + 1 /\
    s' = start_write_proceed (start_write_enter s) /\
    is_writing s' = true /\
    waiting_writers s' = waiting_writers s /\
    active_readers s' = active_readers s /\
    waiting_readers s' = waiting_readers s /\
    shared_resource s' = shared_resource s.
Proof.
  intros Hw Ha. eexists. unfold start_write, write_must_wait. simpl.
  rewrite Hw, Ha. simpl.
  repeat split; simpl; auto with zarith.
Qed.

Lemma start_write_contract_witness :
  exists s' : LockState,
    start_write (set_waiting_readers 3 init) = Returned s' /\
    waiting_writers (start_write_enter (set_waiting_readers 3 init)) = 0 + 1 /\
    s' = start_write_proceed (start_write_enter (set_waiting_readers 3 init)) /\
    is_writing s' = true /\
    waiting_writers s' = 0 /\
    active_readers s' = 0 /\
    waiting_readers s' = 3 /\
    shared_resource s' = 0.
Proof.
  apply (start_write_contract (set_waiting_readers 3 init)); reflexivity.
Defined.

(** C5. [end_write], in any state, clears [is_writing] and leaves the
    counters and [shared_resource] alone; it makes exactly one call on a
    condition variable: [notify()] on the write condition when a writer is
    waiting, and only then, [notify_all()] on the read condition
    otherwise. *)
Theorem end_write_contract (s : LockState) :
  is_writing (fst (end_write s)) = false /\
  active_readers (fst (end_write s)) = active_readers s /\
  waiting_readers (fst (end_write s)) = waiting_readers s /\
  waiting_writers (fst (end_write s)) = waiting_writers s /\
  shared_resource (fst (end_write s)) = shared_resource s /\
  (snd (end_write s) = [notify write_cv] <-> 0 < waiting_writers s) /\
  (snd (end_write s) = [notify_all read_cv] <-> ~ 0 < waiting_writers s).
Proof.
  unfold end_write. simpl.
  destruct (0 <? waiting_writers s) eqn:Hq; simpl.
  - apply Z.ltb_lt in Hq. repeat split; auto; try discriminate; tauto.
  - apply Z.ltb_ge in Hq. repeat split; auto; try discriminate; lia.
Qed.

(** C6. [end_read], with at least one active reader, takes one from
    [active_readers] and leaves the rest alone; it calls [notify()] on the
    write condition when the counter reaches [0], and only then, and makes
    no call otherwise. *)
Theorem end_read_contract (s : LockState) :
  1 <= active_readers s ->
  active_readers (fst (end_read s)) = active_readers s - 1 /\
  waiting_readers (fst (end_read s)) = waiting_readers s /\
  waiting_writers (fst (end_read s)) = waiting_writers s /\
  is_writing (fst (end_read s)) = is_writing s /\
  shared_resource (fst (end_read s)) = shared_resource s /\
  (snd (end_read s) = [notify write_cv] <->
   active_readers (fst (end_read s)) = 0) /\
  (snd (end_read s) = [] <-> active_readers (fst (end_read s)) <> 0).
Proof.
  intros _. unfold end_read. simpl.
  destruct (active_readers s - 1 =? 0) eqn:Hz; simpl.
  - apply Z.eqb_eq in Hz. repeat split; auto; try discriminate; tauto.
  - apply Z.eqb_neq in Hz. repeat split; auto; try discriminate; tauto.
Qed.

Lemma end_read_contract_witness :
  let s := set_waiting_writers 1 (set_active_readers 1 init) in
  end_read s = (set_waiting_writers 1 init, [notify write_cv]) /\
  (active_readers (fst (end_read s)) = active_readers s - 1 /\
   waiting_readers (fst (end_read s)) = waiting_readers s /\
   waiting_writers (fst (end_read s)) = waiting_writers s /\
   is_writing (fst (end_read s)) = is_writing s /\
   shared_resource (fst (end_read s)) = shared_resource s /\
   (snd (end_read s) = [notify write_cv] <->
    active_readers (fst (end_read s)) = 0) /\
   (snd (end_read s) = [] <-> active_readers (fst (end_read s)) <> 0)).
Proof.
  intros s. split; [reflexivity|].
  apply (end_read_contract s). vm_compute. discriminate.
Defined.

(** ** Releasing what is not held *)

Lemma start_read_blocks (s : LockState) :
  blocks (start_read s) = true <-> is_writing s = true \/ 0 < waiting_writers s.
Proof.
  unfold start_read, read_must_wait. simpl.
  destruct (is_writing s), (0 <? waiting_writers s) eqn:Hq; simpl;
    rewrite ?Z.ltb_lt, ?Z.ltb_ge in Hq; intuition (try discriminate; try lia).
Qed.

Lemma start_write_blocks (s : LockState) :
  blocks (start_write s) = true <-> is_writing s = true \/ 0 < active_readers s.
Proof.
  unfold start_write, write_must_wait. simpl.
  destruct (is_writing s), (0 <? active_readers s) eqn:Hq; simpl;
    rewrite ?Z.ltb_lt, ?Z.ltb_ge in Hq; intuition (try discriminate; try lia).
Qed.

(** The counterexample to C10 as the claim states it: a release that
    matches nothing does change who has to wait.  On a new lock, a reader
    that has taken the lock makes [start_write] wait; after an [end_read]
    made with nothing held, [active_readers] is [-1], the same reader brings
    it to [0] only, and [start_write] is let through while the reader is
    inside. *)
Lemma unmatched_release_changes_blocking :
  let one_reader :=
    {| active_readers := 1; waiting_readers := 0; is_writing := false;
       waiting_writers := 0; shared_resource := 0 |} in
  let corrupted :=
    {| active_readers := -1; waiting_readers := 0; is_writing := false;
       waiting_writers := 0; shared_resource := 0 |} in
  let uncounted_reader :=
    {| active_readers := 0; waiting_readers := 0; is_writing := false;
       waiting_writers := 0; shared_resource := 0 |} in
  (start_read init = Returned one_reader /\
   blocks (start_write one_reader) = true) /\
  (end_read init = (corrupted, []) /\
   start_read corrupted = Returned uncounted_reader /\
   blocks (start_write uncounted_reader) = false /\
   start_write uncounted_reader =
     Returned {| active_readers := 0; waiting_readers := 0;
                 is_writing := true; waiting_writers := 0;
                 shared_resource := 0 |}).
Proof. repeat split. Qed.

(** C10, amended.  Neither release checks that something is held: in every
    state [end_read] takes one from [active_readers] and [end_write] clears
    [is_writing], every other field staying as it is, and as steps of a
    method they return, never waiting or raising.  On a new lock [end_read]
    leaves [active_readers = -1], outside the invariant, and calls no
    condition variable.  The wait conditions are then applied to the
    counters as the release left them, so who waits can change.  After an
    [end_read]: [start_read] waits exactly when it did before, and
    [start_write] waits exactly when a writer is writing or
    [active_readers] was above [1], which differs from before exactly when
    no writer was writing and [active_readers] was [1].  After an
    [end_write]: [start_read] waits exactly when a writer is waiting and
    [start_write] exactly when a reader is active, which differs from
    before exactly when a writer was writing (and, for [start_read], no
    writer was waiting; for [start_write], no reader was active).  On a new
    lock itself nothing changes: neither [start_read] nor [start_write]
    waits, before or after either release. *)
Theorem unmatched_release (s : LockState) (w : World) :
  (active_readers (fst (end_read s)) = active_readers s - 1 /\
   waiting_readers (fst (end_read s)) = waiting_readers s /\
   is_writing (fst (end_read s)) = is_writing s /\
   waiting_writers (fst (end_read s)) = waiting_writers s /\
   shared_resource (fst (end_read s)) = shared_resource s) /\
  (active_readers (fst (end_write s)) = active_readers s /\
   waiting_readers (fst (end_write s)) = waiting_readers s /\
   is_writing (fst (end_write s)) = false /\
   waiting_writers (fst (end_write s)) = waiting_writers s /\
   shared_resource (fst (end_write s)) = shared_resource s) /\
  (exists w' : World,
      releasing end_read w = Done tt w' /\ lock w' = fst (end_read (lock w))) /\
  (exists w' : World,
      releasing end_write w = Done tt w' /\
      lock w' = fst (end_write (lock w))) /\
  (end_read init =
     ({| active_readers := -1; waiting_readers := 0; is_writing := false;
         waiting_writers := 0; shared_resource := 0 |}, []) /\
   ~ consistent (fst (end_read init))) /\
  (blocks (start_read (fst (end_read s))) = blocks (start_read s) /\
   (blocks (start_write (fst (end_read s))) = true <->
    is_writing s = true \/ 1 < active_readers s) /\
   (blocks (start_write (fst (end_read s))) <> blocks (start_write s) <->
    is_writing s = false /\ active_readers s = 1)) /\
  ((blocks (start_read (fst (end_write s))) = true <->
    0 < waiting_writers s) /\
   (blocks (start_read (fst (end_write s))) <> blocks (start_read s) <->
    is_writing s = true /\ waiting_writers s <= 0) /\
   (blocks (start_write (fst (end_write s))) = true <->
    0 < active_readers s) /\
   (blocks (start_write (fst (end_write s))) <> blocks (start_write s) <->
    is_writing s = true /\ active_readers s <= 0)) /\
  (blocks (start_read init) = false /\
   blocks (start_write init) = false /\
   blocks (start_read (fst (end_read init))) = false /\
   blocks (start_write (fst (end_read init))) = false /\
   blocks (start_read (fst (end_write init))) = false /\
   blocks (start_write (fst (end_write init))) = false).
Proof.
  split; [rewrite end_read_fst; repeat split|].
  split; [rewrite end_write_fst; repeat split|].
  split; [unfold releasing; destruct (end_read (lock w)); eauto|].
  split; [unfold releasing; destruct (end_write (lock w)); eauto|].
  split; [split; [reflexivity|intros [_ H _ _]; simpl in H; lia]|].
  split; [|split; [|repeat split]].
  - rewrite end_read_fst. unfold blocks, start_read, start_write,
      read_must_wait, write_must_wait. simpl.
    destruct (is_writing s); simpl.
    + split; [by destruct (0 <? waiting_writers s)|].
      split; [tauto|]. split; [congruence|intros [? _]; discriminate].
    + split; [by destruct (0 <? waiting_writers s)|].
      destruct (0 <? active_readers s - 1) eqn:H1,
               (0 <? active_readers s) eqn:H0;
        rewrite ?Z.ltb_lt, ?Z.ltb_ge in H0, H1;
        intuition (try discriminate; try congruence; try lia).
  - rewrite end_write_fst. unfold blocks, start_read, start_write,
      read_must_wait, write_must_wait. simpl.
    destruct (is_writing s), (0 <? waiting_writers s) eqn:Hq,
             (0 <? active_readers s) eqn:Ha; simpl;
      rewrite ?Z.ltb_lt, ?Z.ltb_ge in Hq, Ha;
      intuition (try discriminate; try congruence; try lia).
Qed.

(** What the corruption costs: after an [end_read] on a new lock, one reader
    brings [active_readers] back to [0], and a writer is then let in while
    that reader is still inside. *)
Lemma unmatched_release_breaks_exclusion :
  exists s1 s2 : LockState,
    start_read (fst (end_read init)) = Returned s1 /\
    active_readers s1 = 0 /\
    start_write s1 = Returned s2 /\
    is_writing s2 = true.
Proof. eexists _, _. repeat split. Qed.

(** ** Balanced schedules *)

Lemma count_if_cons {A : Type} (f : A -> bool) (x : A) (l : list A) :
  count_if f (x :: l) = (if f x then 1 else 0) + count_if f l.
Proof.
  unfold count_if. simpl. destruct (f x); simpl; lia.
Qed.

Lemma begins_other (t u : nat) (a : action) : u <> t -> begins t (u, a) = false.
Proof.
  intros Hne. unfold begins.
  rewrite !bool_decide_eq_false_2; [reflexivity| |]; congruence.
Qed.

Lemma releases_other (t u : nat) (a : action) :
  u <> t -> releases t (u, a) = false.
Proof.
  intros Hne. unfold releases.
  rewrite !bool_decide_eq_false_2; [reflexivity| |]; congruence.
Qed.

(** Along a schedule, what a thread has begun and not released is what it
    is in the middle of. *)
Lemma begun_not_released (tr : list (nat * action)) (σ σ' : sys) (t : nat)
    (p p' : pc) :
  run σ tr = Some σ' ->
  sys_threads σ !! t = Some p ->
  sys_threads σ' !! t = Some p' ->
  count_if (begins t) tr - count_if (releases t) tr =
  (if decide (p' = Idle) then 0 else 1) - (if decide (p = Idle) then 0 else 1).
Proof.
  revert σ p. induction tr as [|[u a] tr IH]; intros σ p Hrun Hp Hp'; simpl in Hrun.
  - injection Hrun as <-. rewrite Hp in Hp'. injection Hp' as <-.
    unfold count_if. simpl. lia.
  - destruct (step σ u a) as [σ1|] eqn:Hs; [|discriminate].
    rewrite !count_if_cons.
    destruct (decide (u = t)) as [->|Hne].
    + pose proof Hs as Hs'.
      apply step_inv in Hs' as (p0 & q & l' & Hp0 & -> & Hcase).
      rewrite Hp in Hp0. injection Hp0 as <-.
      assert (Hq : <[t := q]> (sys_threads σ) !! t = Some q)
        by (apply list_lookup_insert_eq; by eapply lookup_lt_Some).
      pose proof (IH _ q Hrun Hq Hp') as HI. clear IH.
      set (B := count_if (begins t) tr) in *.
      set (R := count_if (releases t) tr) in *.
      destruct Hcase as
        [(-> & -> & -> & _) | [(-> & -> & -> & _) | [(-> & -> & -> & _) |
        [(-> & -> & -> & _) | [(-> & -> & -> & _) | (-> & -> & -> & _)]]]]];
        unfold begins, releases;
        repeat case_bool_decide; repeat case_decide; simpl;
        try congruence; lia.
    + rewrite (begins_other _ _ _ Hne), (releases_other _ _ _ Hne).
      rewrite <- (step_other _ _ _ _ _ Hs Hne) in Hp.
      pose proof (IH _ p Hrun Hp Hp') as HI. lia.
Qed.

Lemma count_pc_all_idle (p : pc) (thr : list pc) :
  (forall (t : nat) (q : pc), thr !! t = Some q -> q = Idle) ->
  p <> Idle -> count_pc p thr = 0.
Proof.
  intros Hall Hne. induction thr as [|q thr IH]; simpl; [reflexivity|].
  rewrite IH by (intros t q' Hq; apply (Hall (S t)); exact Hq).
  rewrite (Hall 0%nat q eq_refl).
  destruct (decide (Idle = p)); [congruence|lia].
Qed.

Lemma paired_idle (n : nat) (tr : list (nat * action)) (σ : sys) (t : nat)
    (q : pc) :
  run (init_sys n) tr = Some σ ->
  paired n tr = true ->
  sys_threads σ !! t = Some q -> q = Idle.
Proof.
  intros Hrun Hpair Hq.
  assert (Hlt : (t < n)%nat).
  { apply lookup_lt_Some in Hq. rewrite (run_length _ _ _ Hrun) in Hq.
    simpl in Hq. by rewrite length_replicate in Hq. }
  unfold paired in Hpair. rewrite forallb_forall in Hpair.
  specialize (Hpair t). rewrite in_seq in Hpair.
  specialize (Hpair ltac:(lia)). apply Z.eqb_eq in Hpair.
  assert (Hi : sys_threads (init_sys n) !! t = Some Idle)
    by (simpl; by apply lookup_replicate_2).
  pose proof (begun_not_released _ _ _ _ _ _ Hrun Hi Hq) as Hb.
  destruct (decide (q = Idle)); [assumption|].
  destruct (decide (Idle = Idle)); [lia|congruence].
Qed.

(** C7. A schedule from a new lock in which every operation begun is
    released, thread by thread, ends with no active reader, no writer, and
    nobody waiting. *)
Theorem balanced_idle (n : nat) (tr : list (nat * action)) (σ : sys) :
  run (init_sys n) tr = Some σ ->
  paired n tr = true ->
  active_readers (sys_lock σ) = 0 /\
  is_writing (sys_lock σ) = false /\
  waiting_readers (sys_lock σ) = 0 /\
  waiting_writers (sys_lock σ) = 0.
Proof.
  intros Hrun Hpair.
  pose proof (linked_run _ _ _ (linked_init n) Hrun) as [Ha Hwr Hww Hw _].
  assert (Hall : forall (t : nat) (q : pc), sys_threads σ !! t = Some q -> q = Idle)
    by (intros t q; eapply paired_idle; eassumption).
  rewrite (count_pc_all_idle Reading _ Hall) in Ha by discriminate.
  rewrite (count_pc_all_idle WaitingToRead _ Hall) in Hwr by discriminate.
  rewrite (count_pc_all_idle WaitingToWrite _ Hall) in Hww by discriminate.
  rewrite (count_pc_all_idle Writing _ Hall) in Hw by discriminate.
  repeat split; try assumption.
  destruct (is_writing (sys_lock σ)); [lia|reflexivity].
Qed.

(** Two readers overlap, then a writer waits for them, writes and leaves. *)
Lemma balanced_idle_witness :
  let tr := [(0%nat, EnterRead); (1%nat, EnterRead); (0%nat, AcquireRead);
             (1%nat, AcquireRead); (2%nat, EnterWrite); (0%nat, EndRead);
             (1%nat, EndRead); (2%nat, AcquireWrite); (2%nat, EndWrite)] in
  run (init_sys 3) tr = Some (init_sys 3) /\
  paired 3 tr = true /\
  (active_readers (sys_lock (init_sys 3)) = 0 /\
   is_writing (sys_lock (init_sys 3)) = false /\
   waiting_readers (sys_lock (init_sys 3)) = 0 /\
   waiting_writers (sys_lock (init_sys 3)) = 0).
Proof.
  intros tr. split; [reflexivity|]. split; [reflexivity|].
  apply (balanced_idle 3 tr (init_sys 3)); reflexivity.
Defined.

(** ** The convenience methods *)

Lemma LockState_eq (s s' : LockState) :
  active_readers s = active_readers s' ->
  waiting_readers s = waiting_readers s' ->
  is_writing s = is_writing s' ->
  waiting_writers s = waiting_writers s' ->
  shared_resource s = shared_resource s' ->
  s = s'.
Proof.
  destruct s, s'; simpl; intros; subst; reflexivity.
Qed.

Lemma start_read_returns (s : LockState) :
  is_writing s = false -> waiting_writers s <= 0 ->
  start_read s = Returned (set_active_readers (active_readers s + 1) s).
Proof.
  intros Hw Hq. unfold start_read, read_must_wait. simpl. rewrite Hw. simpl.
  replace (0 <? waiting_writers s) with false
    by (symmetry; apply Z.ltb_ge; lia).
  f_equal. apply LockState_eq; simpl; lia || reflexivity.
Qed.

Lemma start_write_returns (s : LockState) :
  is_writing s = false -> active_readers s <= 0 ->
  start_write s = Returned (set_is_writing true s).
Proof.
  intros Hw Ha. unfold start_write, write_must_wait. simpl. rewrite Hw. simpl.
  replace (0 <? active_readers s) with false
    by (symmetry; apply Z.ltb_ge; lia).
  f_equal. apply LockState_eq; simpl; lia || reflexivity.
Qed.

Lemma end_read_after_start (s : LockState) :
  fst (end_read (set_active_readers (active_readers s + 1) s)) = s.
Proof.
  rewrite end_read_fst. apply LockState_eq; simpl; lia || reflexivity.
Qed.

Lemma printable_le (a b : Z) :
  Z.abs a <= Z.abs b -> printable b = true -> printable a = true.
Proof.
  unfold printable. generalize (10 ^ int_max_str_digits). intros limit.
  rewrite !Z.ltb_lt. lia.
Qed.

Lemma printable_small (z : Z) : Z.abs z <= 1000000 -> printable z = true.
Proof.
  intros H. apply (printable_le z 1000000); [lia|]. vm_compute. reflexivity.
Qed.

(** What [read_resource] comes to, case by case. *)
Lemma read_resource_runs (lg : Logger) (ident : Z) (w : World) :
  is_writing (lock w) = false ->
  waiting_writers (lock w) <= 0 ->
  printable ident = true ->
  let held := set_active_readers (active_readers (lock w) + 1) (lock w) in
  let logged :=
    [(Log INFO ("Thread " ++ numeral ident ++ " reading resource: "
                ++ numeral (shared_resource (lock w))), held);
     (Sleep 100, held)] in
  read_resource lg ident w =
    if printable (shared_resource (lock w)) then
      if keeps_frame lg then
        Done tt {| lock := held; history := history w ++ logged;
                   guards := ReadLock :: guards w |}
      else
        Done tt {| lock := lock w;
                   history :=
                     history w ++ logged ++
                     map (fun sg => (Signal sg, lock w)) (snd (end_read held));
                   guards := guards w |}
    else
      Raised ValueError {| lock := held; history := history w;
                           guards := ReadLock :: guards w |}.
Proof.
  intros Hw Hq Hi held logged.
  unfold read_resource, with_guard, guard_init, ReadLock_init, blocking.
  rewrite (start_read_returns _ Hw Hq). fold held.
  unfold mbind, M_bind, thread_id_to_string, str, get_lock. rewrite Hi.
  cbn [lock history guards].
  change (shared_resource held) with (shared_resource (lock w)).
  destruct (printable (shared_resource (lock w))); [|reflexivity].
  unfold perform. cbn [lock history guards].
  destruct (keeps_frame lg).
  - unfold outlives, mret, M_ret. cbn [lock history guards].
    by rewrite <- app_assoc.
  - unfold guard_del, ReadLock_del, releasing, mret, M_ret.
    cbn [lock history guards].
    pose proof (end_read_after_start (lock w)) as He. fold held in He.
    destruct (end_read held) as [s1 sigs]. simpl in He. subst s1.
    cbn [snd]. by rewrite <- !app_assoc.
Qed.

(** What [write_resource] comes to, case by case. *)
Lemma write_resource_runs (lg : Logger) (ident value : Z) (w : World) :
  is_writing (lock w) = false ->
  active_readers (lock w) <= 0 ->
  printable ident = true ->
  let writing := set_shared_resource value (set_is_writing true (lock w)) in
  let after := set_shared_resource value (lock w) in
  let logged :=
    [(Log INFO ("Thread " ++ numeral ident ++ " wrote resource: "
                ++ numeral value), writing);
     (Sleep 200, writing)] in
  write_resource lg ident value w =
    if printable value then
      if keeps_frame lg then
        Done tt {| lock := writing; history := history w ++ logged;
                   guards := WriteLock :: guards w |}
      else
        Done tt {| lock := after;
                   history :=
                     history w ++ logged ++
                     map (fun sg => (Signal sg, after)) (snd (end_write writing));
                   guards := guards w |}
    else
      Raised ValueError {| lock := writing; history := history w;
                           guards := WriteLock :: guards w |}.
Proof.
  intros Hw Ha Hi writing after logged.
  unfold write_resource, with_guard, guard_init, WriteLock_init, blocking.
  rewrite (start_write_returns _ Hw Ha).
  unfold mbind, M_bind, thread_id_to_string, str, get_lock, put_lock.
  rewrite Hi. cbn [lock history guards]. fold writing.
  destruct (printable value); [|reflexivity].
  unfold perform. cbn [lock history guards].
  destruct (keeps_frame lg).
  - unfold outlives, mret, M_ret. cbn [lock history guards].
    by rewrite <- app_assoc.
  - unfold guard_del, WriteLock_del, releasing, mret, M_ret.
    cbn [lock history guards].
    assert (He : fst (end_write writing) = after).
    { rewrite end_write_fst. apply LockState_eq; simpl; congruence. }
    destruct (end_write writing) as [s1 sigs]. simpl in He. subst s1.
    cbn [snd]. by rewrite <- !app_assoc.
Qed.

(** When a guard that outlived its call is finalised at last, the lock is
    given back. *)
Lemma finalize_read (s : LockState) (h : list (effect * LockState))
    (gs : list guard) :
  finalize 0 {| lock := set_active_readers (active_readers s + 1) s;
                history := h; guards := ReadLock :: gs |} =
  Done tt {| lock := s;
             history :=
               h ++ map (fun sg => (Signal sg, s))
                        (snd (end_read
                                (set_active_readers (active_readers s + 1) s)));
             guards := gs |}.
Proof.
  unfold finalize, guard_del, ReadLock_del, releasing.
  cbn [lock history guards lookup list_lookup delete list_delete].
  pose proof (end_read_after_start s) as He.
  destruct (end_read _) as [s1 sigs]. simpl in He. by subst s1.
Qed.

(** C8.  What [read_resource] does when the read lock can be taken at once
    ([is_writing] false, [waiting_writers] zero), for every logger and every
    value of [shared_resource].  It takes the lock with [start_read]:
    [active_readers] goes up by one, nothing else changes.  The lock comes
    back through [ReadLock.__del__] alone, so not on every exit path.
    With a value of at most 4300 digits and a logger that keeps no
    reference to the frame, the call returns with the lock state as it
    found it, [end_read] having run on the way out.  With a logger that
    keeps one, the call returns with [active_readers] still one higher and
    the guard alive.  With a longer value the f-string raises [ValueError]:
    the call ends with nothing logged, [active_readers] one higher and the
    guard alive.  In all cases [shared_resource] is untouched, and when the
    guard is finalised the lock state is back as it was. *)
Theorem read_resource_exits (lg : Logger) (ident : Z) (w : World) :
  is_writing (lock w) = false ->
  waiting_writers (lock w) = 0 ->
  printable ident = true ->
  exists held : LockState,
    start_read (lock w) = Returned held /\
    (active_readers held = active_readers (lock w) + 1 /\
     waiting_readers held = waiting_readers (lock w) /\
     is_writing held = false /\
     waiting_writers held = 0 /\
     shared_resource held = shared_resource (lock w)) /\
    fst (end_read held) = lock w /\
    (forall h : list (effect * LockState),
        finalize 0 {| lock := held; history := h;
                      guards := ReadLock :: guards w |} =
        Done tt {| lock := lock w;
                   history := h ++ map (fun sg => (Signal sg, lock w))
                                       (snd (end_read held));
                   guards := guards w |}) /\
    read_resource lg ident w =
      let logged :=
        [(Log INFO ("Thread " ++ numeral ident ++ " reading resource: "
                    ++ numeral (shared_resource (lock w))), held);
         (Sleep 100, held)] in
      if printable (shared_resource (lock w)) then
        if keeps_frame lg then
          Done tt {| lock := held; history := history w ++ logged;
                     guards := ReadLock :: guards w |}
        else
          Done tt {| lock := lock w;
                     history :=
                       history w ++ logged ++
                       map (fun sg => (Signal sg, lock w))
                           (snd (end_read held));
                     guards := guards w |}
      else
        Raised ValueError {| lock := held; history := history w;
                             guards := ReadLock :: guards w |}.
Proof.
  intros Hw Hq Hi.
  exists (set_active_readers (active_readers (lock w) + 1) (lock w)).
  split; [apply start_read_returns; [assumption|lia]|].
  split; [simpl; auto|].
  split; [apply end_read_after_start|].
  split; [intros h; apply finalize_read|].
  apply read_resource_runs; [assumption|lia|assumption].
Qed.

(** The call of [test_read_resource_method], with a logger that keeps the
    frame: the call returns with [active_readers = 1]. *)
Lemma read_resource_exits_witness :
  let before :=
    {| active_readers := 0; waiting_readers := 0; is_writing := false;
       waiting_writers := 0; shared_resource := 42 |} in
  let reading :=
    {| active_readers := 1; waiting_readers := 0; is_writing := false;
       waiting_writers := 0; shared_resource := 42 |} in
  let lg := {| keeps_frame := true |} in
  let w := {| lock := before; history := []; guards := [] |} in
  read_resource lg 7 w =
    Done tt {| lock := reading;
               history := [(Log INFO "Thread 7 reading resource: 42", reading);
                           (Sleep 100, reading)];
               guards := [ReadLock] |} /\
  exists held : LockState,
    start_read (lock w) = Returned held /\
    (active_readers held = active_readers (lock w) + 1 /\
     waiting_readers held = waiting_readers (lock w) /\
     is_writing held = false /\
     waiting_writers held = 0 /\
     shared_resource held = shared_resource (lock w)) /\
    fst (end_read held) = lock w /\
    (forall h : list (effect * LockState),
        finalize 0 {| lock := held; history := h;
                      guards := ReadLock :: guards w |} =
        Done tt {| lock := lock w;
                   history := h ++ map (fun sg => (Signal sg, lock w))
                                       (snd (end_read held));
                   guards := guards w |}) /\
    read_resource lg 7 w =
      let logged :=
        [(Log INFO ("Thread " ++ numeral 7 ++ " reading resource: "
                    ++ numeral (shared_resource (lock w))), held);
         (Sleep 100, held)] in
      if printable (shared_resource (lock w)) then
        if keeps_frame lg then
          Done tt {| lock := held; history := history w ++ logged;
                     guards := ReadLock :: guards w |}
        else
          Done tt {| lock := lock w;
                     history :=
                       history w ++ logged ++
                       map (fun sg => (Signal sg, lock w))
                           (snd (end_read held));
                     guards := guards w |}
      else
        Raised ValueError {| lock := held; history := history w;
                             guards := ReadLock :: guards w |}.
Proof.
  intros before reading lg w. split; [vm_compute; reflexivity|].
  apply (read_resource_exits lg 7 w);
    [reflexivity|reflexivity|vm_compute; reflexivity].
Defined.

(** A value of 4301 digits: the call is left by [ValueError] with the read
    lock held, whatever the logger. *)
Lemma read_resource_raises_holding :
  read_resource {| keeps_frame := false |} 7
    {| lock := {| active_readers := 0; waiting_readers := 0;
                  is_writing := false; waiting_writers := 0;
                  shared_resource := 10 ^ 4300 |};
       history := []; guards := [] |} =
  Raised ValueError
    {| lock := {| active_readers := 1; waiting_readers := 0;
                  is_writing := false; waiting_writers := 0;
                  shared_resource := 10 ^ 4300 |};
       history := []; guards := [ReadLock] |}.
Proof.
  rewrite read_resource_runs;
    [|reflexivity|simpl; lia|apply printable_small; simpl; lia].
  cbn [lock shared_resource].
  replace (printable (10 ^ 4300)) with false by (vm_compute; reflexivity).
  reflexivity.
Qed.



(** * The lock with its wake-ups *)

(** ** Every schedule with wake-ups is a schedule without *)

Lemma forget_wake_all (c : cv) (thr : list tstate) :
  forget <$> wake_all c thr = forget <$> thr.
Proof.
  unfold wake_all. rewrite <- list_fmap_compose. apply list_fmap_ext.
  intros i st _. simpl. destruct (decide (st = TParked c)) as [->|]; [|reflexivity].
  by destruct c.
Qed.

Lemma forget_wake_one (c : cv) (woken : nat) (thr thr' : list tstate) :
  wake_one c woken thr = Some thr' -> forget <$> thr' = forget <$> thr.
Proof.
  unfold wake_one. destruct (someone_parked c thr); [|by intros [= <-]].
  destruct (thr !! woken) as [st|] eqn:Hw; [|discriminate].
  destruct (decide (st = TParked c)) as [->|]; [|discriminate].
  intros [= <-]. rewrite list_fmap_insert.
  apply list_insert_id. rewrite list_lookup_fmap, Hw. by destruct c.
Qed.

Lemma forget_deliver (sigs : list signal) (woken : nat) (thr thr' : list tstate) :
  deliver sigs woken thr = Some thr' -> forget <$> thr' = forget <$> thr.
Proof.
  revert thr. induction sigs as [|[c|c] sigs IH]; intros thr H; simpl in H.
  - by injection H as <-.
  - destruct (wake_one c woken thr) as [thr1|] eqn:H1; [|discriminate].
    rewrite (IH _ H). eauto using forget_wake_one.
  - rewrite (IH _ H). apply forget_wake_all.
Qed.

Lemma coarse_lookup (σ : nsys) (t : nat) (st : tstate) :
  nthreads σ !! t = Some st -> sys_threads (coarse σ) !! t = Some (forget st).
Proof. intros H. simpl. by rewrite list_lookup_fmap, H. Qed.

(** One stretch with the mutex is at most two atomic parts of the four
    operations; a thread that wakes and parks again is none. *)
Lemma nstep_coarse (σ σ' : nsys) (t : nat) (a : ncall) :
  nstep σ t a = Some σ' ->
  exists tr : list (nat * action), run (coarse σ) tr = Some (coarse σ').
Proof.
  unfold nstep. destruct (nthreads σ !! t) as [st|] eqn:Ht; [|discriminate].
  pose proof (coarse_lookup _ _ _ Ht) as Hc.
  destruct st as [|[|]|[|]| |], a; try discriminate; simpl in Hc.
  - (* start_read *)
    unfold start_read.
    destruct (read_must_wait (start_read_enter (nlock σ))) eqn:Hg;
      intros [= <-]; simpl.
    + exists [(t, EnterRead)]. simpl. unfold step. simpl. rewrite Hc. simpl.
      unfold coarse. simpl. by rewrite list_fmap_insert.
    + exists [(t, EnterRead); (t, AcquireRead)].
      rewrite (start_read_steps (coarse σ) t
                 (start_read_proceed (start_read_enter (nlock σ))) Hc).
      * unfold coarse. simpl. by rewrite list_fmap_insert.
      * unfold start_read. simpl. by rewrite Hg.
  - (* start_write *)
    unfold start_write.
    destruct (write_must_wait (start_write_enter (nlock σ))) eqn:Hg;
      intros [= <-]; simpl.
    + exists [(t, EnterWrite)]. simpl. unfold step. simpl. rewrite Hc. simpl.
      unfold coarse. simpl. by rewrite list_fmap_insert.
    + exists [(t, EnterWrite); (t, AcquireWrite)].
      rewrite (start_write_steps (coarse σ) t
                 (start_write_proceed (start_write_enter (nlock σ))) Hc).
      * unfold coarse. simpl. by rewrite list_fmap_insert.
      * unfold start_write. simpl. by rewrite Hg.
  - (* a reader wakes *)
    unfold resume_read. destruct (read_must_wait (nlock σ)) eqn:Hg;
      intros [= <-]; simpl.
    + exists []. simpl. f_equal. unfold coarse. simpl. f_equal.
      rewrite list_fmap_insert. symmetry. by apply list_insert_id.
    + exists [(t, AcquireRead)]. simpl. unfold step. simpl. rewrite Hc. simpl.
      rewrite Hg. unfold coarse. simpl. by rewrite list_fmap_insert.
  - (* a writer wakes *)
    unfold resume_write. destruct (write_must_wait (nlock σ)) eqn:Hg;
      intros [= <-]; simpl.
    + exists []. simpl. f_equal. unfold coarse. simpl. f_equal.
      rewrite list_fmap_insert. symmetry. by apply list_insert_id.
    + exists [(t, AcquireWrite)]. simpl. unfold step. simpl. rewrite Hc. simpl.
      rewrite Hg. unfold coarse. simpl. by rewrite list_fmap_insert.
  - (* end_read *)
    destruct (deliver _ _ _) as [thr'|] eqn:Hd; [|discriminate].
    intros [= <-]. exists [(t, EndRead)]. simpl. unfold step. simpl. rewrite Hc. simpl.
    unfold coarse. simpl.
    by rewrite (forget_deliver _ _ _ _ Hd), list_fmap_insert.
  - (* end_write *)
    destruct (deliver _ _ _) as [thr'|] eqn:Hd; [|discriminate].
    intros [= <-]. exists [(t, EndWrite)]. simpl. unfold step. simpl. rewrite Hc. simpl.
    unfold coarse. simpl.
    by rewrite (forget_deliver _ _ _ _ Hd), list_fmap_insert.
Qed.

Lemma nrun_coarse (tr : list (nat * ncall)) (σ σ' : nsys) :
  nrun σ tr = Some σ' ->
  exists tr' : list (nat * action), run (coarse σ) tr' = Some (coarse σ').
Proof.
  revert σ. induction tr as [|[t a] tr IH]; intros σ H; simpl in H.
  - injection H as <-. by exists [].
  - destruct (nstep σ t a) as [σ1|] eqn:Hs; [|discriminate].
    destruct (nstep_coarse _ _ _ _ Hs) as [tr1 H1].
    destruct (IH _ H) as [tr2 H2].
    exists (tr1 ++ tr2). by rewrite run_app, H1.
Qed.

Lemma coarse_ninit (n : nat) : coarse (ninit n) = init_sys n.
Proof. unfold coarse, ninit, init_sys. simpl. by rewrite fmap_replicate. Qed.

(** ** No wake-up is lost *)

Lemma someone_parked_spec (c : cv) (thr : list tstate) :
  someone_parked c thr = true <-> exists u : nat, thr !! u = Some (TParked c).
Proof.
  unfold someone_parked. rewrite existsb_exists. split.
  - intros (st & Hin & Hst). apply bool_decide_eq_true in Hst as ->.
    apply list_elem_of_In, list_elem_of_lookup in Hin. exact Hin.
  - intros [u Hu]. exists (TParked c). split.
    + apply list_elem_of_In, list_elem_of_lookup. eauto.
    + by apply bool_decide_eq_true.
Qed.

(** What [notify()] leaves: whoever is parked afterwards was parked before,
    whoever was awake still is, and if anybody is still parked on [c] then
    the thread named has been woken. *)
Lemma wake_one_spec (c : cv) (woken : nat) (thr thr' : list tstate) :
  wake_one c woken thr = Some thr' ->
  (forall (u : nat) (c' : cv),
      thr' !! u = Some (TParked c') -> thr !! u = Some (TParked c')) /\
  (forall (v : nat) (c' : cv),
      thr !! v = Some (TAwake c') -> thr' !! v = Some (TAwake c')) /\
  (forall u : nat,
      thr' !! u = Some (TParked c) -> thr' !! woken = Some (TAwake c)).
Proof.
  unfold wake_one. destruct (someone_parked c thr) eqn:Hs.
  - destruct (thr !! woken) as [st|] eqn:Hw; [|discriminate].
    destruct (decide (st = TParked c)) as [->|]; [|discriminate].
    intros [= <-]. split; [|split].
    + intros u c' Hu. apply list_lookup_insert_Some in Hu as
        [(_ & ? & _) | (_ & Hu)]; [discriminate|assumption].
    + intros v c' Hv. rewrite list_lookup_insert_ne; [assumption|].
      intros ->. rewrite Hw in Hv. discriminate.
    + intros _ _. apply list_lookup_insert_eq. by eapply lookup_lt_Some.
  - intros [= <-]. split; [auto|]. split; [auto|].
    intros u Hu. exfalso.
    assert (someone_parked c thr = true) by (apply someone_parked_spec; eauto).
    congruence.
Qed.

Lemma wake_all_spec (c : cv) (thr : list tstate) (u : nat) (st : tstate) :
  wake_all c thr !! u = Some st ->
  st <> TParked c /\
  (thr !! u = Some st \/ st = TAwake c /\ thr !! u = Some (TParked c)).
Proof.
  unfold wake_all. rewrite list_lookup_fmap.
  destruct (thr !! u) as [st0|]; [|discriminate]. simpl.
  destruct (decide (st0 = TParked c)) as [->|Hne]; intros [= <-].
  - split; [discriminate|]. right. auto.
  - split; [assumption|]. by left.
Qed.

Lemma count_pc_pos (p : pc) (thr : list pc) :
  1 <= count_pc p thr -> exists t : nat, thr !! t = Some p.
Proof.
  induction thr as [|q thr IH]; simpl; [lia|].
  destruct (decide (q = p)) as [->|]; intros H.
  - by exists 0%nat.
  - destruct IH as [t Ht]; [lia|]. by exists (S t).
Qed.

Lemma count_pc_none (p : pc) (thr : list pc) :
  (forall t : nat, thr !! t <> Some p) -> count_pc p thr = 0.
Proof.
  intros Hno. pose proof (count_pc_nonneg p thr).
  destruct (decide (1 <= count_pc p thr)) as [Hpos|]; [|lia].
  destruct (count_pc_pos _ _ Hpos) as [t Ht]. by destruct (Hno t).
Qed.

Lemma attended_init (n : nat) : attended (ninit n).
Proof.
  split; intros u Hu; simpl in Hu; apply lookup_replicate in Hu as [? _];
    discriminate.
Qed.

Ltac inserted H :=
  apply list_lookup_insert_Some in H as [(<- & ? & _) | (? & H)];
  try discriminate.

Ltac still_awake v Hv t Ht :=
  right; right; exists v; rewrite list_lookup_insert_ne; [exact Hv|];
  intros <-; rewrite Ht in Hv; discriminate.

(** Every stretch with the mutex keeps everybody attended. *)
Lemma attended_step (σ σ' : nsys) (t : nat) (a : ncall) :
  linked (coarse σ) -> attended σ -> nstep σ t a = Some σ' -> attended σ'.
Proof.
  intros Hl [Hw Hr]. unfold nstep.
  destruct (nthreads σ !! t) as [st|] eqn:Ht; [|discriminate].
  destruct st as [|[|]|[|]| |], a; try discriminate.
  - (* start_read *)
    unfold start_read.
    destruct (read_must_wait (start_read_enter (nlock σ))) eqn:Hg;
      intros [= <-]; split; simpl; intros u Hu; inserted Hu;
      try exact (Hr u Hu).
    + destruct (Hw u Hu) as [?|[?|[v Hv]]]; auto. still_awake v Hv t Ht.
    + unfold read_must_wait in Hg. simpl in Hg.
      apply orb_true_iff in Hg as [?|Hq]; [by left|right]. by apply Z.ltb_lt.
    + destruct (Hw u Hu) as [?|[?|[v Hv]]]; auto; [right; left; lia|].
      still_awake v Hv t Ht.
  - (* start_write *)
    unfold start_write.
    destruct (write_must_wait (start_write_enter (nlock σ))) eqn:Hg;
      intros [= <-]; split; simpl; intros u Hu; inserted Hu;
      try exact (Hr u Hu); auto.
    + unfold write_must_wait in Hg. simpl in Hg.
      apply orb_true_iff in Hg as [?|Hq]; [by left|right; left].
      by apply Z.ltb_lt.
    + destruct (Hw u Hu) as [?|[?|[v Hv]]]; auto. still_awake v Hv t Ht.
    + destruct (Hr u Hu) as [?|?]; auto. right. lia.
  - (* a reader wakes *)
    unfold resume_read. destruct (read_must_wait (nlock σ)) eqn:Hg;
      intros [= <-]; split; simpl; intros u Hu; inserted Hu;
      try exact (Hr u Hu); auto.
    + destruct (Hw u Hu) as [?|[?|[v Hv]]]; auto. still_awake v Hv t Ht.
    + unfold read_must_wait in Hg.
      apply orb_true_iff in Hg as [?|Hq]; [by left|right]. by apply Z.ltb_lt.
    + destruct (Hw u Hu) as [?|[?|[v Hv]]]; auto; [right; left; lia|].
      still_awake v Hv t Ht.
  - (* a writer wakes *)
    unfold resume_write. destruct (write_must_wait (nlock σ)) eqn:Hg;
      intros [= <-]; split; simpl; intros u Hu; inserted Hu;
      try exact (Hr u Hu); auto.
    all: unfold write_must_wait in Hg;
      apply orb_true_iff in Hg as [?|Hq]; [by left|right; left];
      by apply Z.ltb_lt.
  - (* end_read *)
    destruct (deliver _ _ _) as [thr'|] eqn:Hd; [|discriminate].
    intros [= <-]. rewrite end_read_fst. unfold end_read in Hd. simpl in Hd.
    destruct (active_readers (nlock σ) - 1 =? 0) eqn:Hz; simpl in Hd.
    + destruct (wake_one write_cv woken _) as [thr1|] eqn:H1; [|discriminate].
      injection Hd as <-. apply wake_one_spec in H1 as (Hp & _ & Hwk).
      split; simpl; intros u Hu.
      * right. right. exists woken. eauto.
      * apply Hp in Hu. inserted Hu. exact (Hr u Hu).
    + injection Hd as <-. apply Z.eqb_neq in Hz.
      split; simpl; intros u Hu; inserted Hu;
      try exact (Hr u Hu); auto.
      destruct (Hw u Hu) as [?|[?|[v Hv]]]; auto; [right; left; lia|].
      still_awake v Hv t Ht.
  - (* end_write *)
    destruct (deliver _ _ _) as [thr'|] eqn:Hd; [|discriminate].
    intros [= <-]. rewrite end_write_fst. unfold end_write in Hd. simpl in Hd.
    destruct (0 <? waiting_writers (nlock σ)) eqn:Hq; simpl in Hd.
    + destruct (wake_one write_cv woken _) as [thr1|] eqn:H1; [|discriminate].
      injection Hd as <-. apply wake_one_spec in H1 as (Hp & _ & Hwk).
      apply Z.ltb_lt in Hq.
      split; simpl; intros u Hu; [|by right].
      right. right. exists woken. eauto.
    + injection Hd as <-. apply Z.ltb_ge in Hq.
      split; simpl; intros u Hu; apply wake_all_spec in Hu as [Hne Hu];
        [|congruence].
      exfalso. destruct Hu as [Hu|[? _]]; [|discriminate]. inserted Hu.
      destruct Hl as [_ _ Hww _ _].
      apply coarse_lookup, count_pc_lookup in Hu. simpl in Hu, Hww. lia.
Qed.

Lemma attended_run (tr : list (nat * ncall)) (σ σ' : nsys) :
  linked (coarse σ) -> attended σ -> nrun σ tr = Some σ' ->
  linked (coarse σ') /\ attended σ'.
Proof.
  revert σ. induction tr as [|[t a] tr IH]; intros σ Hl Ha H; simpl in H.
  - injection H as <-. auto.
  - destruct (nstep σ t a) as [σ1|] eqn:Hs; [|discriminate].
    apply (IH σ1); [|eauto using attended_step|assumption].
    destruct (nstep_coarse _ _ _ _ Hs) as [tr1 H1].
    eauto using linked_run.
Qed.

Lemma reachable_attended (n : nat) (tr : list (nat * ncall)) (σ : nsys) :
  nrun (ninit n) tr = Some σ -> linked (coarse σ) /\ attended σ.
Proof.
  apply attended_run; [rewrite coarse_ninit; apply linked_init|].
  apply attended_init.
Qed.

(** With the lock free, one of the threads inside [start_read] or
    [start_write] is awake and gets the lock when it runs. *)
Lemma wake_pending (σ : nsys) (u : nat) (c : cv) :
  linked (coarse σ) -> attended σ ->
  is_writing (nlock σ) = false -> active_readers (nlock σ) = 0 ->
  nthreads σ !! u = Some (TParked c) \/ nthreads σ !! u = Some (TAwake c) ->
  exists (t : nat) (σ' : nsys),
    nstep σ t WakeUp = Some σ' /\
    (nthreads σ' !! t = Some TReading \/ nthreads σ' !! t = Some TWriting).
Proof.
  intros [_ _ Hww _ _] [Hw Hr] Hi Ha Hu. simpl in Hww.
  pose proof (count_pc_nonneg WaitingToWrite (forget <$> nthreads σ)) as Hnn.
  destruct (decide (1 <= count_pc WaitingToWrite (forget <$> nthreads σ)))
    as [Hp|Hp].
  - assert (exists v : nat, nthreads σ !! v = Some (TAwake write_cv))
      as [v Hv].
    { apply count_pc_pos in Hp as [v Hv]. rewrite list_lookup_fmap in Hv.
      destruct (nthreads σ !! v) as [st|] eqn:E; [|discriminate].
      simpl in Hv. injection Hv as Hv.
      destruct st as [|[|]|[|]| |]; try discriminate; [|eauto].
      destruct (Hw v E) as [?|[?|?]]; [congruence|lia|assumption]. }
    exists v. eexists. split.
    + unfold nstep. rewrite Hv. reflexivity.
    + right. unfold resume_write, write_must_wait. rewrite Hi, Ha. simpl.
      apply list_lookup_insert_eq. by eapply lookup_lt_Some.
  - assert (nthreads σ !! u = Some (TAwake read_cv)) as Hu'.
    { destruct c.
      - destruct Hu as [Hu|Hu]; [|assumption].
        destruct (Hr u Hu); [congruence|lia].
      - exfalso. apply Hp. apply (count_pc_lookup _ _ u).
        rewrite list_lookup_fmap. by destruct Hu as [-> | ->]. }
    exists u. eexists. split.
    + unfold nstep. rewrite Hu'. reflexivity.
    + left. unfold resume_read, read_must_wait. rewrite Hi.
      replace (0 <? waiting_writers (nlock σ)) with false
        by (symmetry; apply Z.ltb_ge; lia).
      simpl. apply list_lookup_insert_eq. by eapply lookup_lt_Some.
Qed.

(** [notify()] always finds a thread to name. *)
Lemma wake_one_total (c : cv) (thr : list tstate) :
  exists (woken : nat) (thr' : list tstate),
    wake_one c woken thr = Some thr' /\
    forall t : nat, thr !! t = Some TIdle -> thr' !! t = Some TIdle.
Proof.
  unfold wake_one. destruct (someone_parked c thr) eqn:Hs.
  - apply someone_parked_spec in Hs as [u Hu]. exists u. eexists.
    rewrite Hu. destruct (decide (TParked c = TParked c)); [|congruence].
    split; [reflexivity|]. intros t Ht.
    rewrite list_lookup_insert_ne; [assumption|].
    intros ->. rewrite Hu in Ht. discriminate.
  - exists 0%nat, thr. auto.
Qed.

Lemma deliver_short (sigs : list signal) (thr : list tstate) :
  (length sigs <= 1)%nat ->
  exists (woken : nat) (thr' : list tstate),
    deliver sigs woken thr = Some thr' /\
    forall t : nat, thr !! t = Some TIdle -> thr' !! t = Some TIdle.
Proof.
  destruct sigs as [|[c|c] [|sg sigs]]; simpl; try lia; intros _.
  - exists 0%nat, thr. auto.
  - destruct (wake_one_total c thr) as (woken & thr' & Hd & Hk).
    exists woken, thr'. rewrite Hd. auto.
  - exists 0%nat. eexists. split; [reflexivity|]. intros t Ht.
    unfold wake_all. rewrite list_lookup_fmap, Ht. simpl.
    by destruct (decide (TIdle = TParked c)).
Qed.

Lemma end_read_signals (s : LockState) : (length (snd (end_read s)) <= 1)%nat.
Proof. unfold end_read. simpl. destruct (_ =? _); simpl; lia. Qed.

Lemma end_write_signals (s : LockState) : (length (snd (end_write s)) <= 1)%nat.
Proof. unfold end_write. simpl. destruct (_ <? _); simpl; lia. Qed.

(** A thread that holds the lock can always give it back. *)
Lemma release_enabled (σ : nsys) (t : nat) :
  nthreads σ !! t = Some TReading \/ nthreads σ !! t = Some TWriting ->
  exists (a : ncall) (σ' : nsys),
    nstep σ t a = Some σ' /\ nthreads σ' !! t = Some TIdle.
Proof.
  assert (Hidle : forall st, nthreads σ !! t = Some st ->
                    <[t := TIdle]> (nthreads σ) !! t = Some TIdle).
  { intros st Hst. apply list_lookup_insert_eq. by eapply lookup_lt_Some. }
  intros [Ht|Ht]; unfold nstep; rewrite Ht.
  - destruct (deliver_short _ (<[t := TIdle]> (nthreads σ))
                (end_read_signals (nlock σ))) as (woken & thr' & Hd & Hk).
    exists (CallEndRead woken). rewrite Hd. eexists. split; [reflexivity|].
    simpl. eauto.
  - destruct (deliver_short _ (<[t := TIdle]> (nthreads σ))
                (end_write_signals (nlock σ))) as (woken & thr' & Hd & Hk).
    exists (CallEndWrite woken). rewrite Hd. eexists. split; [reflexivity|].
    simpl. eauto.
Qed.

(** ** Every step forward lightens the load *)

Lemma total_load_insert (thr : list tstate) (t : nat) (st x : tstate) :
  thr !! t = Some st ->
  (total_load (<[t := x]> thr) + load st = total_load thr + load x)%nat.
Proof.
  unfold total_load, fmap. revert t.
  induction thr as [|y thr IH]; intros [|t] H; simpl in *; try discriminate.
  - injection H as ->. lia.
  - specialize (IH t H). lia.
Qed.

Lemma total_load_wake_all (c : cv) (thr : list tstate) :
  total_load (wake_all c thr) = total_load thr.
Proof.
  unfold total_load, wake_all, fmap.
  induction thr as [|y thr IH]; simpl; [reflexivity|]. rewrite IH.
  destruct (decide (y = TParked c)) as [->|]; reflexivity.
Qed.

Lemma total_load_wake_one (c : cv) (woken : nat) (thr thr' : list tstate) :
  wake_one c woken thr = Some thr' -> total_load thr' = total_load thr.
Proof.
  unfold wake_one. destruct (someone_parked c thr); [|by intros [= <-]].
  destruct (thr !! woken) as [st|] eqn:Hw; [|discriminate].
  destruct (decide (st = TParked c)) as [->|]; [|discriminate].
  intros [= <-].
  pose proof (total_load_insert _ _ _ (TAwake c) Hw) as H. simpl in H. lia.
Qed.

Lemma total_load_deliver (sigs : list signal) (woken : nat)
    (thr thr' : list tstate) :
  deliver sigs woken thr = Some thr' -> total_load thr' = total_load thr.
Proof.
  revert thr. induction sigs as [|[c|c] sigs IH]; intros thr H; simpl in H.
  - by injection H as <-.
  - destruct (wake_one c woken thr) as [thr1|] eqn:H1; [|discriminate].
    rewrite (IH _ H). eauto using total_load_wake_one.
  - rewrite (IH _ H). apply total_load_wake_all.
Qed.

Lemma total_load_zero (thr : list tstate) (t : nat) (st : tstate) :
  total_load thr = 0%nat -> thr !! t = Some st -> st = TIdle.
Proof.
  unfold total_load, fmap. revert t.
  induction thr as [|y thr IH]; intros [|t] Hz H; simpl in *; try discriminate.
  - injection H as ->. destruct st as [|c|c| |]; simpl in Hz; lia || reflexivity.
  - apply (IH t); [lia|assumption].
Qed.

Lemma total_load_pos (thr : list tstate) :
  (0 < total_load thr)%nat ->
  exists (u : nat) (st : tstate), thr !! u = Some st /\ st <> TIdle.
Proof.
  unfold total_load, fmap. induction thr as [|y thr IH]; simpl; [lia|]. intros H.
  destruct (decide (y = TIdle)) as [->|Hne].
  - destruct IH as (u & st & Hu & Hst); [simpl in H; lia|].
    by exists (S u), st.
  - by exists 0%nat, y.
Qed.

Lemma release_load (σ σ' : nsys) (t : nat) (a : ncall) :
  nthreads σ !! t = Some TReading \/ nthreads σ !! t = Some TWriting ->
  nstep σ t a = Some σ' ->
  is_start a = false /\
  (total_load (nthreads σ') + 1 = total_load (nthreads σ))%nat.
Proof.
  intros Ht Hs. unfold nstep in Hs.
  destruct Ht as [Ht|Ht]; rewrite Ht in Hs; destruct a; try discriminate.
  all: destruct (deliver _ _ _) as [thr'|] eqn:Hd; [|discriminate].
  all: injection Hs as <-; simpl; split; [reflexivity|].
  all: apply total_load_deliver in Hd; rewrite Hd.
  all: pose proof (total_load_insert _ _ _ TIdle Ht) as Hi; simpl in Hi; lia.
Qed.

Lemma wake_load (σ σ' : nsys) (t : nat) :
  nstep σ t WakeUp = Some σ' ->
  nthreads σ' !! t = Some TReading \/ nthreads σ' !! t = Some TWriting ->
  nthreads σ !! t <> Some TIdle /\
  (total_load (nthreads σ') + 1 = total_load (nthreads σ))%nat.
Proof.
  intros Hs Hh. unfold nstep in Hs.
  destruct (nthreads σ !! t) as [st|] eqn:Ht; [|discriminate].
  assert (Hlt : (t < length (nthreads σ))%nat) by eauto using lookup_lt_Some.
  destruct st as [|c|[|]| |]; try discriminate; (split; [discriminate|]).
  - unfold resume_read in Hs.
    destruct (read_must_wait (nlock σ)); injection Hs as <-; simpl in *.
    + rewrite list_lookup_insert_eq in Hh by assumption.
      destruct Hh; discriminate.
    + pose proof (total_load_insert _ _ _ TReading Ht) as Hi. simpl in Hi. lia.
  - unfold resume_write in Hs.
    destruct (write_must_wait (nlock σ)); injection Hs as <-; simpl in *.
    + rewrite list_lookup_insert_eq in Hh by assumption.
      destruct Hh; discriminate.
    + pose proof (total_load_insert _ _ _ TWriting Ht) as Hi. simpl in Hi. lia.
Qed.

(** While some thread is not idle, some thread that is not idle can go one
    stage further. *)
Lemma advance (σ : nsys) (u : nat) (st : tstate) :
  linked (coarse σ) -> attended σ ->
  nthreads σ !! u = Some st -> st <> TIdle ->
  exists (t : nat) (a : ncall) (σ' : nsys),
    nstep σ t a = Some σ' /\
    is_start a = false /\
    nthreads σ !! t <> Some TIdle /\
    (nthreads σ' !! t = Some TIdle \/ nthreads σ' !! t = Some TReading \/
     nthreads σ' !! t = Some TWriting) /\
    (total_load (nthreads σ') < total_load (nthreads σ))%nat.
Proof.
  intros Hl Hatt Hu Hne.
  assert (Hrel : forall t : nat,
             nthreads σ !! t = Some TReading \/
             nthreads σ !! t = Some TWriting ->
             exists (t : nat) (a : ncall) (σ' : nsys),
               nstep σ t a = Some σ' /\
               is_start a = false /\
               nthreads σ !! t <> Some TIdle /\
               (nthreads σ' !! t = Some TIdle \/
                nthreads σ' !! t = Some TReading \/
                nthreads σ' !! t = Some TWriting) /\
               (total_load (nthreads σ') < total_load (nthreads σ))%nat).
  { intros t Ht. destruct (release_enabled σ t Ht) as (a & σ' & Hs & Hi).
    destruct (release_load _ _ _ _ Ht Hs) as [Ha Hload].
    exists t, a, σ'. split; [assumption|]. split; [assumption|].
    split; [destruct Ht as [-> | ->]; discriminate|].
    split; [by left|lia]. }
  destruct st as [|c|c| |]; [congruence| | |eauto|eauto].
  all: pose proof Hl as [Hact _ _ Hwr _]; simpl in Hact, Hwr.
  all: pose proof (count_pc_nonneg Reading (forget <$> nthreads σ)) as Hnn.
  all: destruct (decide (1 <= count_pc Reading (forget <$> nthreads σ)))
         as [Hp|Hp];
       [apply count_pc_pos in Hp as [t Ht]; rewrite list_lookup_fmap in Ht;
        destruct (nthreads σ !! t) as [[|[|]|[|]| |]|] eqn:E;
        try discriminate; eauto|].
  all: destruct (is_writing (nlock σ)) eqn:Hi;
       [assert (1 <= count_pc Writing (forget <$> nthreads σ)) as Hq by lia;
        apply count_pc_pos in Hq as [t Ht]; rewrite list_lookup_fmap in Ht;
        destruct (nthreads σ !! t) as [[|[|]|[|]| |]|] eqn:E;
        try discriminate; eauto|].
  all: assert (active_readers (nlock σ) = 0) as Ha by lia.
  all: destruct (wake_pending σ u c Hl Hatt Hi Ha) as (t & σ' & Hs & Hh);
       [auto|].
  all: destruct (wake_load _ _ _ Hs Hh) as [Hni Hload].
  all: exists t, WakeUp, σ'; split; [assumption|]; split; [reflexivity|].
  all: split; [assumption|]; split; [tauto|lia].
Qed.

(** From any state in which the counters count the threads and no thread
    is parked unattended, the threads inside the lock can all be brought
    out of it, no new call being made. *)
Lemma drain (m : nat) (σ : nsys) :
  linked (coarse σ) -> attended σ ->
  (total_load (nthreads σ) <= m)%nat ->
  exists (tr : list (nat * ncall)) (σ' : nsys),
    nrun σ tr = Some σ' /\
    Forall (fun x => is_start (snd x) = false) tr /\
    linked (coarse σ') /\
    total_load (nthreads σ') = 0%nat.
Proof.
  revert σ. induction m as [|m IH]; intros σ Hl Hatt Hm.
  - exists [], σ. simpl. split; [reflexivity|]. split; [constructor|].
    split; [assumption|lia].
  - destruct (decide (total_load (nthreads σ) = 0%nat)) as [Hz|Hnz].
    + exists [], σ. simpl. split; [reflexivity|]. split; [constructor|]. auto.
    + destruct (total_load_pos (nthreads σ)) as (u & st & Hu & Hne); [lia|].
      destruct (advance σ u st Hl Hatt Hu Hne)
        as (t & a & σ1 & Hs & Ha & _ & _ & Hlt).
      destruct (IH σ1) as (tr & σ' & Hrun & Hall & Hl' & Hz').
      * destruct (nstep_coarse _ _ _ _ Hs) as [tr1 H1].
        eauto using linked_run.
      * eauto using attended_step.
      * lia.
      * exists ((t, a) :: tr), σ'. simpl. rewrite Hs.
        split; [assumption|]. split; [by constructor|]. auto.
Qed.

(** ** Progress *)

(** X1. No wake-up is lost.  Take any state that [n] threads reach from a
    new lock by calling [start_read], [end_read], [start_write] and
    [end_write], a waiting thread running again only after a [notify] or
    [notify_all] has woken it.  If the lock is free there (no writer, no
    active reader) while some thread is still inside [start_read] or
    [start_write], parked or woken, then some thread has been woken and
    gets the lock as soon as it runs. *)
Theorem no_lost_wakeup (n : nat) (tr : list (nat * ncall)) (σ : nsys)
    (u : nat) (c : cv) :
  nrun (ninit n) tr = Some σ ->
  is_writing (nlock σ) = false ->
  active_readers (nlock σ) = 0 ->
  nthreads σ !! u = Some (TParked c) \/ nthreads σ !! u = Some (TAwake c) ->
  exists (t : nat) (σ' : nsys),
    nstep σ t WakeUp = Some σ' /\
    (nthreads σ' !! t = Some TReading \/ nthreads σ' !! t = Some TWriting).
Proof.
  intros Hrun Hi Ha Hu. destruct (reachable_attended _ _ _ Hrun) as [Hl Hatt].
  exact (wake_pending σ u c Hl Hatt Hi Ha Hu).
Qed.

(** A reader holds the lock, a writer parks, the reader leaves. *)
Lemma no_lost_wakeup_witness :
  let tr := [(0%nat, CallStartRead); (1%nat, CallStartWrite);
             (0%nat, CallEndRead 1)] in
  let σ := {| nlock := set_waiting_writers 1 init;
              nthreads := [TIdle; TAwake write_cv] |} in
  nrun (ninit 2) tr = Some σ /\
  exists (t : nat) (σ' : nsys),
    nstep σ t WakeUp = Some σ' /\
    (nthreads σ' !! t = Some TReading \/ nthreads σ' !! t = Some TWriting).
Proof.
  intros tr σ. split; [reflexivity|].
  apply (no_lost_wakeup 2 tr σ 1 write_cv); [reflexivity..|].
  right. reflexivity.
Defined.

(** X2. The lock never deadlocks.  In any state reached as in X1 in which
    some thread is not idle, some thread that is not idle can take a step
    that brings it forward: a thread holding the lock gives it back, or a
    woken thread gets the lock. *)
Theorem no_deadlock (n : nat) (tr : list (nat * ncall)) (σ : nsys)
    (u : nat) (st : tstate) :
  nrun (ninit n) tr = Some σ ->
  nthreads σ !! u = Some st -> st <> TIdle ->
  exists (t : nat) (a : ncall) (σ' : nsys),
    nstep σ t a = Some σ' /\
    nthreads σ !! t <> Some TIdle /\
    (nthreads σ' !! t = Some TIdle \/ nthreads σ' !! t = Some TReading \/
     nthreads σ' !! t = Some TWriting).
Proof.
  intros Hrun Hu Hne.
  destruct (reachable_attended _ _ _ Hrun) as [Hl Hatt].
  destruct (advance σ u st Hl Hatt Hu Hne)
    as (t & a & σ' & Hs & _ & Hni & Hafter & _).
  by exists t, a, σ'.
Qed.

(** Two readers inside, a writer parked behind them. *)
Lemma no_deadlock_witness :
  let tr := [(0%nat, CallStartRead); (1%nat, CallStartRead);
             (2%nat, CallStartWrite)] in
  let σ := {| nlock := set_waiting_writers 1 (set_active_readers 2 init);
              nthreads := [TReading; TReading; TParked write_cv] |} in
  nrun (ninit 3) tr = Some σ /\
  exists (t : nat) (a : ncall) (σ' : nsys),
    nstep σ t a = Some σ' /\
    nthreads σ !! t <> Some TIdle /\
    (nthreads σ' !! t = Some TIdle \/ nthreads σ' !! t = Some TReading \/
     nthreads σ' !! t = Some TWriting).
Proof.
  intros tr σ. split; [reflexivity|].
  apply (no_deadlock 3 tr σ 2 (TParked write_cv));
    [reflexivity|reflexivity|discriminate].
Defined.

(** X3. The lock always drains.  From every state reached as in X1 the
    threads can go on, no thread calling [start_read] or [start_write]
    again, until every thread is idle: no thread is left waiting for ever
    behind the others.  The lock is then as new: no active reader, no
    writer, nobody counted as waiting. *)
Theorem lock_drains (n : nat) (tr : list (nat * ncall)) (σ : nsys) :
  nrun (ninit n) tr = Some σ ->
  exists (tr' : list (nat * ncall)) (σ' : nsys),
    nrun σ tr' = Some σ' /\
    Forall (fun x => is_start (snd x) = false) tr' /\
    (forall (t : nat) (st : tstate),
        nthreads σ' !! t = Some st -> st = TIdle) /\
    active_readers (nlock σ') = 0 /\
    waiting_readers (nlock σ') = 0 /\
    waiting_writers (nlock σ') = 0 /\
    is_writing (nlock σ') = false.
Proof.
  intros Hrun. destruct (reachable_attended _ _ _ Hrun) as [Hl Hatt].
  destruct (drain _ σ Hl Hatt (le_n _)) as (tr' & σ' & Hrun' & Hall & Hl' & Hz).
  exists tr', σ'. split; [assumption|]. split; [assumption|].
  assert (Hidle : forall (t : nat) (st : tstate),
             nthreads σ' !! t = Some st -> st = TIdle)
    by eauto using total_load_zero.
  split; [assumption|].
  assert (Hnone : forall p : pc, p <> Idle ->
             count_pc p (forget <$> nthreads σ') = 0).
  { intros p Hp. apply count_pc_none. intros t Ht.
    rewrite list_lookup_fmap in Ht.
    destruct (nthreads σ' !! t) as [st|] eqn:E; [|discriminate].
    rewrite (Hidle _ _ E) in Ht. simpl in Ht. congruence. }
  destruct Hl' as [Ha Hwr Hww Hw _]. simpl in Ha, Hwr, Hww, Hw.
  rewrite Hnone in Ha, Hwr, Hww, Hw by discriminate.
  repeat (split; [assumption|]).
  destruct (is_writing (nlock σ')); [lia|reflexivity].
Qed.

(** Two readers inside, a writer parked behind them. *)
Lemma lock_drains_witness :
  let tr := [(0%nat, CallStartRead); (1%nat, CallStartRead);
             (2%nat, CallStartWrite)] in
  let σ := {| nlock := set_waiting_writers 1 (set_active_readers 2 init);
              nthreads := [TReading; TReading; TParked write_cv] |} in
  nrun (ninit 3) tr = Some σ /\
  exists (tr' : list (nat * ncall)) (σ' : nsys),
    nrun σ tr' = Some σ' /\
    Forall (fun x => is_start (snd x) = false) tr' /\
    (forall (t : nat) (st : tstate),
        nthreads σ' !! t = Some st -> st = TIdle) /\
    active_readers (nlock σ') = 0 /\
    waiting_readers (nlock σ') = 0 /\
    waiting_writers (nlock σ') = 0 /\
    is_writing (nlock σ') = false.
Proof.
  intros tr σ. split; [reflexivity|].
  apply (lock_drains 3 tr σ). reflexivity.
Defined.

(** ** Writers and readers, thread by thread *)

(** X4. A writer is alone.  In every state that the threads reach from a new
    lock, also when waiting threads wake up without having been notified:
    while a thread is writing, no other thread is writing and no thread is
    reading. *)
Theorem writer_alone (n : nat) (tr : list (nat * action)) (σ : sys)
    (t u : nat) :
  run (init_sys n) tr = Some σ ->
  sys_threads σ !! t = Some Writing ->
  sys_threads σ !! u <> Some Reading /\
  (sys_threads σ !! u = Some Writing -> u = t).
Proof.
  intros Hrun Ht.
  pose proof (linked_run _ _ _ (linked_init n) Hrun) as [Ha _ _ Hw Hex].
  pose proof (count_pc_lookup _ _ _ Ht) as Hone.
  destruct (is_writing (sys_lock σ)) eqn:Hi; [|lia].
  split.
  - apply count_pc_zero. rewrite <- Ha. by apply Hex.
  - intros Hu. destruct (decide (u = t)) as [|Hne]; [assumption|exfalso].
    assert (Hu' : <[t := Idle]> (sys_threads σ) !! u = Some Writing)
      by (rewrite list_lookup_insert_ne; [assumption|congruence]).
    apply count_pc_lookup in Hu'.
    rewrite (count_pc_insert Writing Writing Idle _ _ Ht) in Hu'.
    destruct (decide (Writing = Writing)); [|congruence].
    destruct (decide (Idle = Writing)); [congruence|]. lia.
Qed.

(** A writer inside, a reader and a second writer kept out. *)
Lemma writer_alone_witness :
  let tr := [(0%nat, EnterWrite); (0%nat, AcquireWrite); (1%nat, EnterRead);
             (2%nat, EnterWrite)] in
  let σ := {| sys_lock := {| active_readers := 0; waiting_readers := 1;
                             is_writing := true; waiting_writers := 1;
                             shared_resource := 0 |};
              sys_threads := [Writing; WaitingToRead; WaitingToWrite] |} in
  run (init_sys 3) tr = Some σ /\
  sys_threads σ !! 1%nat <> Some Reading /\
  (sys_threads σ !! 1%nat = Some Writing -> 1%nat = 0%nat).
Proof.
  intros tr σ. split; [reflexivity|].
  apply (writer_alone 3 tr σ 0 1); reflexivity.
Defined.

(** X5. The four operations of the lock never touch [shared_resource]:
    whatever the threads do with them, in any order, the value stays the one
    it was. *)
Theorem lock_leaves_resource (tr : list (nat * action)) (σ σ' : sys) :
  run σ tr = Some σ' ->
  shared_resource (sys_lock σ') = shared_resource (sys_lock σ).
Proof.
  revert σ. induction tr as [|[t a] tr IH]; intros σ H; simpl in H.
  - by injection H as <-.
  - destruct (step σ t a) as [σ1|] eqn:Hs; [|discriminate].
    rewrite (IH _ H).
    apply step_inv in Hs as (p & q & l' & _ & -> & Hcase). simpl.
    destruct Hcase as
      [(_ & _ & _ & ->) | [(_ & _ & _ & _ & ->) | [(_ & _ & _ & ->) |
      [(_ & _ & _ & ->) | [(_ & _ & _ & _ & ->) | (_ & _ & _ & ->)]]]]];
      rewrite ?end_read_fst, ?end_write_fst; reflexivity.
Qed.

(** A reader and a writer come and go around a value of [5]. *)
Lemma lock_leaves_resource_witness :
  let tr := [(0%nat, EnterRead); (0%nat, AcquireRead); (1%nat, EnterWrite);
             (0%nat, EndRead); (1%nat, AcquireWrite); (1%nat, EndWrite)] in
  let σ := {| sys_lock := set_shared_resource 5 init;
              sys_threads := [Idle; Idle] |} in
  run σ tr = Some σ /\ shared_resource (sys_lock σ) = 5.
Proof.
  intros tr σ. split; [reflexivity|].
  apply (lock_leaves_resource tr σ σ). reflexivity.
Defined.

Lemma readers_enter (m k : nat) :
  nrun {| nlock := set_active_readers (Z.of_nat k) init;
          nthreads := replicate k TReading ++ replicate m TIdle |}
       ((fun t => (t, CallStartRead)) <$> seq k m) =
  Some {| nlock := set_active_readers (Z.of_nat (k + m)) init;
          nthreads := replicate (k + m) TReading |}.
Proof.
  revert k. induction m as [|m IH]; intros k.
  - simpl. by rewrite Nat.add_0_r, app_nil_r.
  - assert (Hs : start_read (set_active_readers (Z.of_nat k) init) =
                 Returned (set_active_readers (Z.of_nat (S k)) init)).
    { unfold start_read, read_must_wait, start_read_enter, start_read_proceed.
      cbn -[Z.of_nat Z.add Z.sub]. f_equal.
      apply LockState_eq; cbn -[Z.of_nat Z.add Z.sub]; lia || reflexivity. }
    assert (Hk : (replicate k TReading ++ replicate (S m) TIdle) !! k =
                 Some TIdle).
    { apply list_lookup_middle. by rewrite length_replicate. }
    assert (Hi : <[k := TReading]> (replicate k TReading ++ replicate (S m) TIdle)
                 = replicate (S k) TReading ++ replicate m TIdle).
    { rewrite insert_app_r_alt by (rewrite length_replicate; lia).
      rewrite length_replicate, Nat.sub_diag.
      change (<[0%nat := TReading]> (replicate (S m) TIdle))
        with (TReading :: replicate m TIdle).
      rewrite cons_middle, app_assoc. f_equal. symmetry.
      apply replicate_S_end. }
    change (seq k (S m)) with (k :: seq (S k) m). rewrite fmap_cons.
    cbn [nrun]. unfold nstep. cbn [nthreads nlock]. rewrite Hk, Hs.
    cbn [settle]. rewrite Hi, IH. do 3 f_equal; lia.
Qed.

(** X6. Readers share the lock: when [n] threads call [start_read] on a new
    lock one after the other, none of them waits; afterwards all [n] hold
    the lock together and [active_readers] is [n]. *)
Theorem readers_share (n : nat) :
  nrun (ninit n) ((fun t => (t, CallStartRead)) <$> seq 0 n) =
  Some {| nlock := set_active_readers (Z.of_nat n) init;
          nthreads := replicate n TReading |}.
Proof.
  exact (readers_enter n 0).
Qed.

(** ** The convenience methods, in any state *)

(** X7. [write_resource(value, logger)], called while no thread is writing
    and [active_readers <= 0], for every value, logger and state of the
    other counters.  [shared_resource] is [value] from the assignment on and
    [is_writing] is true until [WriteLock.__del__] runs.  With a value of
    at most 4300 digits and a logger that keeps no reference to the frame,
    the call returns with [is_writing] false and everything but
    [shared_resource] as before, the log entry and the sleep made with the
    lock held.  With a logger that keeps one, it returns with the write
    lock still held.  With a longer value, the f-string raises [ValueError]
    after the assignment: nothing is logged and the write lock is still
    held when the call ends. *)
Theorem write_resource_frame (lg : Logger) (ident value : Z) (w : World) :
  is_writing (lock w) = false ->
  active_readers (lock w) <= 0 ->
  printable ident = true ->
  exists writing after : LockState,
    (is_writing writing = true /\ shared_resource writing = value /\
     active_readers writing = active_readers (lock w) /\
     waiting_readers writing = waiting_readers (lock w) /\
     waiting_writers writing = waiting_writers (lock w)) /\
    (is_writing after = false /\ shared_resource after = value /\
     active_readers after = active_readers (lock w) /\
     waiting_readers after = waiting_readers (lock w) /\
     waiting_writers after = waiting_writers (lock w)) /\
    write_resource lg ident value w =
      let logged :=
        [(Log INFO ("Thread " ++ numeral ident ++ " wrote resource: "
                    ++ numeral value), writing);
         (Sleep 200, writing)] in
      if printable value then
        if keeps_frame lg then
          Done tt {| lock := writing; history := history w ++ logged;
                     guards := WriteLock :: guards w |}
        else
          Done tt {| lock := after;
                     history :=
                       history w ++ logged ++
                       map (fun sg => (Signal sg, after))
                           (snd (end_write writing));
                     guards := guards w |}
      else
        Raised ValueError {| lock := writing; history := history w;
                             guards := WriteLock :: guards w |}.
Proof.
  intros Hw Ha Hi.
  exists (set_shared_resource value (set_is_writing true (lock w))),
         (set_shared_resource value (lock w)).
  split; [simpl; auto|]. split; [simpl; auto|].
  by apply write_resource_runs.
Qed.

Lemma write_resource_frame_witness :
  let w := {| lock := {| active_readers := 0; waiting_readers := 2;
                         is_writing := false; waiting_writers := 0;
                         shared_resource := 5 |};
              history := []; guards := [] |} in
  let lg := {| keeps_frame := false |} in
  exists writing after : LockState,
    (is_writing writing = true /\ shared_resource writing = -7 /\
     active_readers writing = active_readers (lock w) /\
     waiting_readers writing = waiting_readers (lock w) /\
     waiting_writers writing = waiting_writers (lock w)) /\
    (is_writing after = false /\ shared_resource after = -7 /\
     active_readers after = active_readers (lock w) /\
     waiting_readers after = waiting_readers (lock w) /\
     waiting_writers after = waiting_writers (lock w)) /\
    write_resource lg 3 (-7) w =
      let logged :=
        [(Log INFO ("Thread " ++ numeral 3 ++ " wrote resource: "
                    ++ numeral (-7)), writing);
         (Sleep 200, writing)] in
      if printable (-7) then
        if keeps_frame lg then
          Done tt {| lock := writing; history := history w ++ logged;
                     guards := WriteLock :: guards w |}
        else
          Done tt {| lock := after;
                     history :=
                       history w ++ logged ++
                       map (fun sg => (Signal sg, after))
                           (snd (end_write writing));
                     guards := guards w |}
      else
        Raised ValueError {| lock := writing; history := history w;
                             guards := WriteLock :: guards w |}.
Proof.
  intros w lg.
  apply (write_resource_frame lg 3 (-7) w);
    [reflexivity|simpl; lia|vm_compute; reflexivity].
Defined.

(** X8. A writer that has to wait writes nothing: when a thread is writing
    or reading, [write_resource] stops inside [start_write], counted in
    [waiting_writers]; [shared_resource] keeps its value and nothing has
    been logged. *)
Theorem blocked_writer_writes_nothing (lg : Logger) (ident value : Z)
    (w : World) :
  is_writing (lock w) = true \/ 0 < active_readers (lock w) ->
  write_resource lg ident value w =
    Stuck {| lock := set_waiting_writers (waiting_writers (lock w) + 1) (lock w);
             history := history w;
             guards := guards w |}.
Proof.
  intros Hg.
  assert (Hs : start_write (lock w) =
               Blocked (set_waiting_writers (waiting_writers (lock w) + 1)
                                            (lock w))).
  { unfold start_write, write_must_wait. simpl.
    destruct Hg as [-> | Hg]; [reflexivity|].
    apply Z.ltb_lt in Hg as ->. by rewrite orb_true_r. }
  unfold write_resource, with_guard, guard_init, WriteLock_init, blocking.
  by rewrite Hs.
Qed.

Lemma blocked_writer_writes_nothing_witness :
  write_resource {| keeps_frame := false |} 3 9
    {| lock := set_active_readers 1 init; history := []; guards := [] |} =
    Stuck {| lock := set_waiting_writers (0 + 1) (set_active_readers 1 init);
             history := []; guards := [] |}.
Proof.
  apply (blocked_writer_writes_nothing {| keeps_frame := false |} 3 9
           {| lock := set_active_readers 1 init; history := [];
              guards := [] |}).
  right. simpl. lia.
Defined.

(** X9. What is written is what is read next, when the writer's guard has
    gone: on a lock that no thread holds or waits to write on, with a
    logger that keeps no reference to the frame and a value of at most 4300
    digits, [write_resource(value, logger)] followed by
    [read_resource(logger)] returns, the reader logs [value], and the lock
    is left as it was but for [shared_resource]. *)
Theorem write_then_read (lg : Logger) (i j value : Z) (w : World) :
  is_writing (lock w) = false ->
  active_readers (lock w) <= 0 ->
  waiting_writers (lock w) <= 0 ->
  keeps_frame lg = false ->
  printable i = true -> printable j = true -> printable value = true ->
  exists (w' : World) (held : LockState),
    (write_resource lg i value ;; read_resource lg j) w = Done tt w' /\
    (shared_resource (lock w') = value /\
     is_writing (lock w') = false /\
     active_readers (lock w') = active_readers (lock w) /\
     waiting_readers (lock w') = waiting_readers (lock w) /\
     waiting_writers (lock w') = waiting_writers (lock w)) /\
    guards w' = guards w /\
    In (Log INFO ("Thread " ++ numeral j
                  ++ " reading resource: " ++ numeral value), held)
       (history w') /\
    active_readers held = active_readers (lock w) + 1.
Proof.
  intros Hw Ha Hq Hk Hi Hj Hv.
  eexists _, (set_active_readers (active_readers (lock w) + 1)
                (set_shared_resource value (lock w))).
  split.
  { unfold mbind, M_bind.
    rewrite (write_resource_runs lg i value w Hw Ha Hi), Hv, Hk.
    rewrite read_resource_runs by assumption.
    cbn [lock shared_resource set_shared_resource]. rewrite Hv, Hk.
    reflexivity. }
  simpl lock. simpl history. simpl guards.
  split; [simpl; auto|]. split; [reflexivity|]. split; [|reflexivity].
  apply in_or_app. right. left. reflexivity.
Qed.

Lemma write_then_read_witness :
  exists (w' : World) (held : LockState),
    (write_resource {| keeps_frame := false |} 1 42 ;;
     read_resource {| keeps_frame := false |} 2) fresh = Done tt w' /\
    (shared_resource (lock w') = 42 /\
     is_writing (lock w') = false /\
     active_readers (lock w') = active_readers (lock fresh) /\
     waiting_readers (lock w') = waiting_readers (lock fresh) /\
     waiting_writers (lock w') = waiting_writers (lock fresh)) /\
    guards w' = guards fresh /\
    In (Log INFO ("Thread " ++ numeral 2
                  ++ " reading resource: " ++ numeral 42), held)
       (history w') /\
    active_readers held = active_readers (lock fresh) + 1.
Proof.
  apply (write_then_read {| keeps_frame := false |} 1 2 42 fresh);
    [reflexivity|simpl; lia|simpl; lia|reflexivity|
     vm_compute; reflexivity..].
Defined.

(** X16. A guard that outlives its call keeps the others out.  With a
    logger that keeps a reference to the frame, [write_resource] returns
    with the write lock held, and a [read_resource] (or [write_resource])
    that follows stops inside [start_read] ([start_write]), counted as
    waiting; nothing more is logged.  If the guard is finalised in between,
    the second call goes through. *)
Theorem live_guard_blocks (lg : Logger) (i j value : Z) (w : World) :
  is_writing (lock w) = false ->
  active_readers (lock w) <= 0 ->
  waiting_writers (lock w) <= 0 ->
  keeps_frame lg = true ->
  printable i = true -> printable j = true -> printable value = true ->
  exists (w1 : World),
    write_resource lg i value w = Done tt w1 /\
    is_writing (lock w1) = true /\
    shared_resource (lock w1) = value /\
    guards w1 = WriteLock :: guards w /\
    read_resource lg j w1 =
      Stuck {| lock := set_waiting_readers (waiting_readers (lock w1) + 1)
                                           (lock w1);
               history := history w1; guards := guards w1 |} /\
    write_resource lg j value w1 =
      Stuck {| lock := set_waiting_writers (waiting_writers (lock w1) + 1)
                                           (lock w1);
               history := history w1; guards := guards w1 |} /\
    exists (w2 w3 : World),
      finalize 0 w1 = Done tt w2 /\
      is_writing (lock w2) = false /\
      guards w2 = guards w /\
      read_resource lg j w2 = Done tt w3 /\
      active_readers (lock w3) = active_readers (lock w) + 1.
Proof.
  intros Hw Ha Hq Hk Hi Hj Hv.
  eexists. split.
  { rewrite (write_resource_runs lg i value w Hw Ha Hi), Hv, Hk. reflexivity. }
  cbn [lock history guards].
  split; [reflexivity|]. split; [reflexivity|]. split; [reflexivity|].
  split.
  { unfold read_resource, with_guard, guard_init, ReadLock_init, blocking.
    reflexivity. }
  split.
  { unfold write_resource, with_guard, guard_init, WriteLock_init, blocking.
    reflexivity. }
  assert (He : fst (end_write (set_shared_resource value
                                 (set_is_writing true (lock w)))) =
               set_shared_resource value (lock w)).
  { rewrite end_write_fst. apply LockState_eq; simpl; congruence. }
  unfold finalize, guard_del, WriteLock_del, releasing.
  cbn [lock history guards lookup list_lookup delete list_delete].
  destruct (end_write _) as [s1 sigs]. simpl in He. subst s1.
  eexists _, _. split; [reflexivity|]. cbn [lock history guards].
  split; [assumption|]. split; [reflexivity|].
  rewrite read_resource_runs by assumption.
  cbn [lock shared_resource set_shared_resource]. rewrite Hv, Hk.
  split; reflexivity.
Qed.

Lemma live_guard_blocks_witness :
  exists (w1 : World),
    write_resource {| keeps_frame := true |} 1 42 fresh = Done tt w1 /\
    is_writing (lock w1) = true /\
    shared_resource (lock w1) = 42 /\
    guards w1 = WriteLock :: guards fresh /\
    read_resource {| keeps_frame := true |} 2 w1 =
      Stuck {| lock := set_waiting_readers (waiting_readers (lock w1) + 1)
                                           (lock w1);
               history := history w1; guards := guards w1 |} /\
    write_resource {| keeps_frame := true |} 2 42 w1 =
      Stuck {| lock := set_waiting_writers (waiting_writers (lock w1) + 1)
                                           (lock w1);
               history := history w1; guards := guards w1 |} /\
    exists (w2 w3 : World),
      finalize 0 w1 = Done tt w2 /\
      is_writing (lock w2) = false /\
      guards w2 = guards fresh /\
      read_resource {| keeps_frame := true |} 2 w2 = Done tt w3 /\
      active_readers (lock w3) = active_readers (lock fresh) + 1.
Proof.
  apply (live_guard_blocks {| keeps_frame := true |} 1 2 42 fresh);
    [reflexivity|simpl; lia|simpl; lia|reflexivity|
     vm_compute; reflexivity..].
Defined.

(** * The shared database *)

(** The statements below are for a database whose logger keeps no reference
    to the frames of its callers, so that each guard is finalised when its
    call returns, and for numbers that [str] can print. *)

Lemma add_record_runs (ident : Z) (record : string) (db : SharedDatabase) :
  is_writing (lock (readers_writers db)) = false ->
  active_readers (lock (readers_writers db)) <= 0 ->
  keeps_frame (logger db) = false ->
  printable ident = true ->
  printable (Z.of_nat (length (records db))) = true ->
  exists w' : World,
    add_record ident record db =
      Finished tt {| records := records db ++ [record];
                     readers_writers := w';
                     logger := logger db |} /\
    lock w' = set_shared_resource (Z.of_nat (length (records db)))
                                  (lock (readers_writers db)) /\
    guards w' = guards (readers_writers db) /\
    last (history w') = Some (Log INFO ("Added record: " ++ record), lock w').
Proof.
  intros Hw Ha Hk Hi Hn.
  unfold add_record, logger_log, records_append, get_records, get_logger,
    on_lock.
  unfold mbind, DB_bind.
  rewrite (write_resource_runs _ ident _ _ Hw Ha Hi), Hn, Hk.
  unfold perform. cbn [records readers_writers logger lock history guards].
  eexists. split; [reflexivity|]. cbn [lock history guards].
  split; [reflexivity|]. split; [reflexivity|]. apply last_snoc.
Qed.

Lemma get_record_runs (ident index : Z) (db : SharedDatabase) :
  is_writing (lock (readers_writers db)) = false ->
  waiting_writers (lock (readers_writers db)) <= 0 ->
  keeps_frame (logger db) = false ->
  printable ident = true ->
  printable (shared_resource (lock (readers_writers db))) = true ->
  printable index = true ->
  let r := if bool_decide (0 <= index)
           then records db !! Z.to_nat index else None in
  exists w' : World,
    get_record ident index db =
      Finished r {| records := records db; readers_writers := w';
                    logger := logger db |} /\
    lock w' = lock (readers_writers db) /\
    guards w' = guards (readers_writers db) /\
    last (history w') =
      Some (match r with
            | Some record =>
                Log INFO ("Read record at index " ++ numeral index ++ ": "
                          ++ record)
            | None => Log WARNING ("Invalid record index: " ++ numeral index)
            end, lock w').
Proof.
  intros Hw Hq Hk Hi Hs Hx r.
  unfold get_record, logger_log, records_getitem, get_records, get_logger,
    on_lock.
  unfold mbind, DB_bind.
  rewrite (read_resource_runs _ ident _ Hw Hq Hi), Hs, Hk.
  unfold perform, str, mret, DB_ret.
  cbn [records readers_writers logger lock history guards].
  rewrite !Hx.
  destruct (0 <=? index) eqn:H0; cbn [andb].
  - pose proof H0 as Hb. apply Z.leb_le in H0. subst r.
    rewrite bool_decide_eq_true_2 by assumption.
    destruct (index <? Z.of_nat (length (records db))) eqn:H1.
    + apply Z.ltb_lt in H1.
      destruct (lookup_lt_is_Some_2 (records db) (Z.to_nat index))
        as [record Hr]; [lia|].
      cbn [records readers_writers logger lock history guards].
      rewrite !Hb, !Hr.
      cbn [records readers_writers logger lock history guards].
      eexists. split; [reflexivity|]. cbn [lock history guards].
      split; [reflexivity|]. split; [reflexivity|]. apply last_snoc.
    + apply Z.ltb_ge in H1.
      rewrite (lookup_ge_None_2 (records db) (Z.to_nat index)) by lia.
      cbn [records readers_writers logger lock history guards].
      eexists. split; [reflexivity|]. cbn [lock history guards].
      split; [reflexivity|]. split; [reflexivity|]. apply last_snoc.
  - apply Z.leb_gt in H0. subst r.
    rewrite bool_decide_eq_false_2 by lia.
    cbn [records readers_writers logger lock history guards].
    eexists. split; [reflexivity|]. cbn [lock history guards].
    split; [reflexivity|]. split; [reflexivity|]. apply last_snoc.
Qed.

Lemma get_record_count_runs (ident : Z) (db : SharedDatabase) :
  is_writing (lock (readers_writers db)) = false ->
  waiting_writers (lock (readers_writers db)) <= 0 ->
  keeps_frame (logger db) = false ->
  printable ident = true ->
  printable (shared_resource (lock (readers_writers db))) = true ->
  printable (Z.of_nat (length (records db))) = true ->
  exists w' : World,
    get_record_count ident db =
      Finished (Z.of_nat (length (records db)))
               {| records := records db; readers_writers := w';
                  logger := logger db |} /\
    lock w' = lock (readers_writers db) /\
    guards w' = guards (readers_writers db) /\
    last (history w') =
      Some (Log INFO ("Current record count: "
                      ++ numeral (Z.of_nat (length (records db)))), lock w').
Proof.
  intros Hw Hq Hk Hi Hs Hn.
  unfold get_record_count, logger_log, get_records, get_logger, on_lock.
  unfold mbind, DB_bind.
  rewrite (read_resource_runs _ ident _ Hw Hq Hi), Hs, Hk.
  unfold perform, str, mret, DB_ret.
  cbn [records readers_writers logger lock history guards]. rewrite Hn.
  cbn [records readers_writers logger lock history guards].
  eexists. split; [reflexivity|]. cbn [lock history guards].
  split; [reflexivity|]. split; [reflexivity|]. apply last_snoc.
Qed.

Lemma add_records_runs (ident : Z) (rs : list string) (db : SharedDatabase) :
  is_writing (lock (readers_writers db)) = false ->
  active_readers (lock (readers_writers db)) <= 0 ->
  keeps_frame (logger db) = false ->
  printable ident = true ->
  printable (Z.of_nat (length (records db) + length rs)) = true ->
  exists w' : World,
    add_records ident rs db =
      Finished tt {| records := records db ++ rs; readers_writers := w';
                     logger := logger db |} /\
    guards w' = guards (readers_writers db) /\
    is_writing (lock w') = false /\
    active_readers (lock w') = active_readers (lock (readers_writers db)) /\
    waiting_readers (lock w') = waiting_readers (lock (readers_writers db)) /\
    waiting_writers (lock w') = waiting_writers (lock (readers_writers db)) /\
    shared_resource (lock w') =
      match rs with
      | [] => shared_resource (lock (readers_writers db))
      | _ :: _ => Z.of_nat (length (records db) + length rs) - 1
      end.
Proof.
  revert db. induction rs as [|record rs IH]; intros db Hw Ha Hk Hi Hn.
  - exists (readers_writers db). simpl. rewrite app_nil_r.
    destruct db. simpl in *. repeat split; assumption || reflexivity.
  - assert (Hn0 : printable (Z.of_nat (length (records db))) = true).
    { eapply printable_le; [|exact Hn]. simpl length. lia. }
    destruct (add_record_runs ident record db Hw Ha Hk Hi Hn0)
      as (w1 & H1 & Hl1 & Hg1 & _).
    cbn [add_records]. unfold mbind at 1, DB_bind at 1. rewrite H1.
    destruct (IH {| records := records db ++ [record];
                    readers_writers := w1; logger := logger db |})
      as (w2 & H2 & Hg2 & Hc);
      cbn [records readers_writers logger]; rewrite ?Hl1; simpl; auto.
    { rewrite length_app. simpl length.
      replace (length (records db) + 1 + length rs)%nat
        with (length (records db) + S (length rs))%nat by lia.
      exact Hn. }
    exists w2. rewrite H2. cbn [records readers_writers logger] in *.
    rewrite Hl1 in Hc. simpl in Hc.
    destruct Hc as (? & ? & ? & ? & Hsh).
    rewrite <- app_assoc. split; [reflexivity|].
    split; [congruence|].
    repeat (split; [assumption|]).
    rewrite Hsh. rewrite length_app. simpl length.
    destruct rs; simpl length; lia.
Qed.

(** X10. [add_record(record)], called while no thread writes or reads, with
    a logger that keeps no reference to the frame: it returns with [record]
    appended as the last record; it has put the index of the new record into
    [shared_resource], left the rest of the lock as it was and no guard
    alive, and ended by logging the record, after [write_resource] has
    returned and given the write lock back. *)
Theorem add_record_appends (ident : Z) (record : string) (db : SharedDatabase) :
  is_writing (lock (readers_writers db)) = false ->
  active_readers (lock (readers_writers db)) <= 0 ->
  keeps_frame (logger db) = false ->
  printable ident = true ->
  printable (Z.of_nat (length (records db))) = true ->
  exists db' : SharedDatabase,
    add_record ident record db = Finished tt db' /\
    records db' = records db ++ [record] /\
    records db' !! length (records db) = Some record /\
    (shared_resource (lock (readers_writers db')) =
       Z.of_nat (length (records db)) /\
     is_writing (lock (readers_writers db')) = false /\
     active_readers (lock (readers_writers db')) =
       active_readers (lock (readers_writers db)) /\
     waiting_readers (lock (readers_writers db')) =
       waiting_readers (lock (readers_writers db)) /\
     waiting_writers (lock (readers_writers db')) =
       waiting_writers (lock (readers_writers db))) /\
    guards (readers_writers db') = guards (readers_writers db) /\
    last (history (readers_writers db')) =
      Some (Log INFO ("Added record: " ++ record),
            lock (readers_writers db')).
Proof.
  intros Hw Ha Hk Hi Hn.
  destruct (add_record_runs ident record db Hw Ha Hk Hi Hn)
    as (w' & H & Hl & Hg & Hh).
  eexists. split; [exact H|]. cbn [records readers_writers].
  split; [reflexivity|]. split; [apply list_lookup_middle; reflexivity|].
  split; [rewrite Hl; simpl; auto|]. split; assumption.
Qed.

Lemma add_record_appends_witness :
  let db := new_database {| keeps_frame := false |} in
  exists db' : SharedDatabase,
    add_record 1 "first" db = Finished tt db' /\
    records db' = records db ++ ["first"%string] /\
    records db' !! length (records db) = Some "first"%string /\
    (shared_resource (lock (readers_writers db')) =
       Z.of_nat (length (records db)) /\
     is_writing (lock (readers_writers db')) = false /\
     active_readers (lock (readers_writers db')) =
       active_readers (lock (readers_writers db)) /\
     waiting_readers (lock (readers_writers db')) =
       waiting_readers (lock (readers_writers db)) /\
     waiting_writers (lock (readers_writers db')) =
       waiting_writers (lock (readers_writers db))) /\
    guards (readers_writers db') = guards (readers_writers db) /\
    last (history (readers_writers db')) =
      Some (Log INFO ("Added record: " ++ "first"),
            lock (readers_writers db')).
Proof.
  intros db.
  apply (add_record_appends 1 "first" db);
    [reflexivity|simpl; lia|reflexivity|vm_compute; reflexivity..].
Defined.

(** X11. [get_record(index)], called while no thread writes or waits to
    write, with a logger that keeps no reference to the frame and numbers
    of at most 4300 digits, never raises [IndexError]: it returns the record
    at [index] when [0 <= index < len(records)] and [None] otherwise, also
    for a negative index, for which it logs a warning instead of counting
    from the end of the list.  The records, the lock and the guards are
    left as they were. *)
Theorem get_record_checked (ident index : Z) (db : SharedDatabase) :
  is_writing (lock (readers_writers db)) = false ->
  waiting_writers (lock (readers_writers db)) <= 0 ->
  keeps_frame (logger db) = false ->
  printable ident = true ->
  printable (shared_resource (lock (readers_writers db))) = true ->
  printable index = true ->
  exists (r : option string) (db' : SharedDatabase),
    get_record ident index db = Finished r db' /\
    records db' = records db /\
    lock (readers_writers db') = lock (readers_writers db) /\
    guards (readers_writers db') = guards (readers_writers db) /\
    (forall x : string,
        r = Some x <-> 0 <= index /\ records db !! Z.to_nat index = Some x) /\
    (r = None ->
     last (history (readers_writers db')) =
       Some (Log WARNING ("Invalid record index: " ++ numeral index),
             lock (readers_writers db))).
Proof.
  intros Hw Hq Hk Hi Hs Hx.
  destruct (get_record_runs ident index db Hw Hq Hk Hi Hs Hx)
    as (w' & H & Hl & Hg & Hh).
  eexists _, _. split; [exact H|]. cbn [records readers_writers].
  split; [reflexivity|]. split; [assumption|]. split; [assumption|]. split.
  - intros x. case_bool_decide; [tauto|]. split; [discriminate|tauto].
  - intros Hr. rewrite Hr in Hh. by rewrite Hh, Hl.
Qed.

Lemma get_record_checked_witness :
  let db := {| records := ["a"; "b"]%string; readers_writers := fresh;
               logger := {| keeps_frame := false |} |} in
  exists (r : option string) (db' : SharedDatabase),
    get_record 1 (-1) db = Finished r db' /\
    records db' = records db /\
    lock (readers_writers db') = lock (readers_writers db) /\
    guards (readers_writers db') = guards (readers_writers db) /\
    (forall x : string,
        r = Some x <-> 0 <= -1 /\ records db !! Z.to_nat (-1) = Some x) /\
    (r = None ->
     last (history (readers_writers db')) =
       Some (Log WARNING ("Invalid record index: " ++ numeral (-1)),
             lock (readers_writers db))).
Proof.
  intros db.
  apply (get_record_checked 1 (-1) db);
    [reflexivity|simpl; lia|reflexivity|vm_compute; reflexivity..].
Defined.

(** X12. What has been added can be read back: after [add_record] has been
    called for each of [rs] in turn, on a database whose lock no thread
    holds or waits to write on and whose logger keeps no reference to the
    frame, [get_record(index)] returns the record that stands at [index]
    among the old records followed by [rs], and [None] when there is
    none. *)
Theorem added_records_read_back (i j index : Z) (rs : list string)
    (db : SharedDatabase) :
  is_writing (lock (readers_writers db)) = false ->
  active_readers (lock (readers_writers db)) <= 0 ->
  waiting_writers (lock (readers_writers db)) <= 0 ->
  keeps_frame (logger db) = false ->
  printable i = true -> printable j = true -> printable index = true ->
  printable (shared_resource (lock (readers_writers db))) = true ->
  printable (Z.of_nat (length (records db) + length rs)) = true ->
  exists db' : SharedDatabase,
    (add_records i rs ;; get_record j index) db =
      Finished (if bool_decide (0 <= index)
                then (records db ++ rs) !! Z.to_nat index else None) db' /\
    records db' = records db ++ rs /\
    guards (readers_writers db') = guards (readers_writers db).
Proof.
  intros Hw Ha Hq Hk Hi Hj Hx Hs Hn.
  destruct (add_records_runs i rs db Hw Ha Hk Hi Hn)
    as (w1 & H1 & Hg1 & Hw1 & _ & _ & Hq1 & Hs1).
  unfold mbind, DB_bind. rewrite H1.
  destruct (get_record_runs j index
              {| records := records db ++ rs; readers_writers := w1;
                 logger := logger db |})
    as (w2 & H2 & _ & Hg2 & _); cbn [records readers_writers logger];
    try assumption; try lia.
  { rewrite Hs1. destruct rs as [|r0 rs]; [assumption|].
    eapply printable_le; [|exact Hn]. simpl length. lia. }
  rewrite H2. cbn [records readers_writers logger] in Hg2.
  eexists. split; [reflexivity|]. cbn [records readers_writers].
  split; [reflexivity|]. congruence.
Qed.

Lemma added_records_read_back_witness :
  let db := new_database {| keeps_frame := false |} in
  exists db' : SharedDatabase,
    (add_records 1 ["a"; "b"; "c"]%string ;; get_record 2 1) db =
      Finished (if bool_decide (0 <= 1)
                then (records db ++ ["a"; "b"; "c"]%string) !! Z.to_nat 1
                else None) db' /\
    records db' = records db ++ ["a"; "b"; "c"]%string /\
    guards (readers_writers db') = guards (readers_writers db).
Proof.
  intros db.
  apply (added_records_read_back 1 2 1 ["a"; "b"; "c"]%string db);
    [reflexivity|simpl; lia|simpl; lia|reflexivity|vm_compute; reflexivity..].
Defined.

(** X13. The count follows the additions: after [add_record] has been
    called for each of [rs], with a logger that keeps no reference to the
    frame, [get_record_count()] returns the old number of records plus the
    length of [rs]; when [rs] is not empty, [shared_resource] holds the
    index of the last record, and the counters of the lock are as they
    were. *)
Theorem record_count_after_adding (i j : Z) (rs : list string)
    (db : SharedDatabase) :
  is_writing (lock (readers_writers db)) = false ->
  active_readers (lock (readers_writers db)) <= 0 ->
  waiting_writers (lock (readers_writers db)) <= 0 ->
  keeps_frame (logger db) = false ->
  printable i = true -> printable j = true ->
  printable (shared_resource (lock (readers_writers db))) = true ->
  printable (Z.of_nat (length (records db) + length rs)) = true ->
  exists db' : SharedDatabase,
    (add_records i rs ;; get_record_count j) db =
      Finished (Z.of_nat (length (records db) + length rs)) db' /\
    records db' = records db ++ rs /\
    (rs <> [] ->
     shared_resource (lock (readers_writers db')) =
       Z.of_nat (length (records db) + length rs) - 1) /\
    is_writing (lock (readers_writers db')) = false /\
    active_readers (lock (readers_writers db')) =
      active_readers (lock (readers_writers db)) /\
    waiting_readers (lock (readers_writers db')) =
      waiting_readers (lock (readers_writers db)) /\
    waiting_writers (lock (readers_writers db')) =
      waiting_writers (lock (readers_writers db)) /\
    guards (readers_writers db') = guards (readers_writers db).
Proof.
  intros Hw Ha Hq Hk Hi Hj Hs Hn.
  destruct (add_records_runs i rs db Hw Ha Hk Hi Hn)
    as (w1 & H1 & Hg1 & Hw1 & Ha1 & Hr1 & Hq1 & Hs1).
  unfold mbind, DB_bind. rewrite H1.
  destruct (get_record_count_runs j
              {| records := records db ++ rs; readers_writers := w1;
                 logger := logger db |})
    as (w2 & H2 & Hl2 & Hg2 & _); cbn [records readers_writers logger];
    try assumption; try lia.
  { rewrite Hs1. destruct rs as [|r0 rs]; [assumption|].
    eapply printable_le; [|exact Hn]. simpl length. lia. }
  { by rewrite length_app. }
  rewrite H2. cbn [records readers_writers logger] in *. rewrite length_app.
  eexists. split; [reflexivity|]. cbn [records readers_writers].
  rewrite Hl2. split; [reflexivity|]. split; [|repeat split; congruence].
  intros Hne. rewrite Hs1. by destruct rs.
Qed.

Lemma record_count_after_adding_witness :
  let db := new_database {| keeps_frame := false |} in
  exists db' : SharedDatabase,
    (add_records 1 ["a"; "b"; "c"]%string ;; get_record_count 2) db =
      Finished (Z.of_nat (length (records db)
                          + length ["a"; "b"; "c"]%string)) db' /\
    records db' = records db ++ ["a"; "b"; "c"]%string /\
    (["a"; "b"; "c"]%string <> [] ->
     shared_resource (lock (readers_writers db')) =
       Z.of_nat (length (records db) + length ["a"; "b"; "c"]%string) - 1) /\
    is_writing (lock (readers_writers db')) = false /\
    active_readers (lock (readers_writers db')) =
      active_readers (lock (readers_writers db)) /\
    waiting_readers (lock (readers_writers db')) =
      waiting_readers (lock (readers_writers db)) /\
    waiting_writers (lock (readers_writers db')) =
      waiting_writers (lock (readers_writers db)) /\
    guards (readers_writers db') = guards (readers_writers db).
Proof.
  intros db.
  apply (record_count_after_adding 1 2 ["a"; "b"; "c"]%string db);
    [reflexivity|simpl; lia|simpl; lia|reflexivity|vm_compute; reflexivity..].
Defined.



(** * The logger singleton *)

Lemma sound_init (es : list entry) : sound (linit es).
Proof.
  exists Unmade. split; [simpl; auto|]. split.
  - intros u q Hu. simpl in Hu. rewrite list_lookup_fmap in Hu.
    destruct (es !! u) as [[|]|]; simplify_eq/=; auto.
  - intros t u p q Ht _ Hp. simpl in Ht. rewrite list_lookup_fmap in Ht.
    destruct (es !! t) as [[|]|]; simplify_eq/=.
Qed.

(** Thread [t] goes from [p] to [p'], the class from phase [ph] to [ph']. *)
Lemma sound_update (σ : lsys) (t : nat) (p p' : lpc) (c' : LoggerClass)
    (ph ph' : phase) :
  lthreads σ !! t = Some p ->
  (forall (u : nat) (q : lpc),
      lthreads σ !! u = Some q ->
      allowed ph q = true /\
      (holds q = true -> Logger_lock (lclass σ) = true)) ->
  (forall (t u : nat) (p q : lpc),
      lthreads σ !! t = Some p -> lthreads σ !! u = Some q ->
      holds p = true -> holds q = true -> t = u) ->
  in_phase ph' c' ->
  allowed ph' p' = true ->
  (holds p' = true -> Logger_lock c' = true) ->
  (holds p' = true -> holds p = false -> Logger_lock (lclass σ) = false) ->
  (forall q : lpc,
      allowed ph q = true ->
      (holds q = true -> holds p = false /\ Logger_lock (lclass σ) = true) ->
      allowed ph' q = true /\ (holds q = true -> Logger_lock c' = true)) ->
  sound {| lclass := c'; lthreads := <[t := p']> (lthreads σ) |}.
Proof.
  intros Ht Hall Halone Hph Hp' Hl' Hacq Hoth.
  exists ph'. split; [assumption|]. split.
  - intros u q Hu. simpl in Hu.
    apply list_lookup_insert_Some in Hu as [(<- & <- & _)|(Hne & Hu)].
    + auto.
    + destruct (Hall u q Hu) as [Ha Hh]. apply Hoth; [assumption|].
      intros Hq. split; [|auto]. destruct (holds p) eqn:Hp; [|reflexivity].
      exfalso. apply Hne. eapply Halone; eauto.
  - assert (Hnew : forall (u : nat) (q : lpc),
               t <> u -> lthreads σ !! u = Some q ->
               holds p' = true -> holds q = true -> False).
    { intros u q Hne Hu Hh1 Hh2. destruct (holds p) eqn:Hp.
      - apply Hne. eapply Halone; eauto.
      - specialize (Hacq Hh1 eq_refl). destruct (Hall _ _ Hu) as [_ Hl].
        rewrite (Hl Hh2) in Hacq. discriminate. }
    intros t1 u1 p1 q1 H1 H2 Hh1 Hh2. simpl in H1, H2.
    apply list_lookup_insert_Some in H1 as [(<- & <- & _)|(Hne1 & H1)];
      apply list_lookup_insert_Some in H2 as [(<- & <- & _)|(Hne2 & H2)].
    + reflexivity.
    + exfalso. eauto.
    + exfalso. eauto.
    + eauto.
Qed.

Ltac logger_side :=
  simpl in *;
  try (let q := fresh "q" in intros q ? ?; destruct q; simpl in * );
  repeat case_bool_decide;
  intuition (simplify_eq/=; auto; try congruence).

Lemma sound_step (σ σ' : lsys) (t : nat) :
  sound σ -> lstep σ t = Some σ' -> sound σ'.
Proof.
  intros (ph & Hph & Hall & Halone) Hs. unfold lstep in Hs.
  destruct (lthreads σ !! t) as [p|] eqn:Ht; [|discriminate].
  destruct (Hall t p Ht) as [Hap Hlp].
  destruct p; simpl in Hs.
  - destruct (Logger_instance (lclass σ)) eqn:Hi; injection Hs as <-.
    + eapply (sound_update σ t _ AtReturnInstance _ ph ph Ht Hall Halone);
        destruct ph; logger_side.
    + eapply (sound_update σ t _ AtNew _ ph ph Ht Hall Halone);
        destruct ph; logger_side.
  - injection Hs as <-.
    eapply (sound_update σ t _ (Got _) _ ph ph Ht Hall Halone);
      destruct ph; logger_side.
  - assert (Hk : Logger_lock (lclass σ) = false)
      by (destruct (Logger_lock (lclass σ)); [discriminate|reflexivity]).
    rewrite Hk in Hs. injection Hs as <-.
    eapply (sound_update σ t _ AtTest _ ph ph Ht Hall Halone);
      destruct ph; logger_side.
  - destruct (Logger_instance (lclass σ)) eqn:Hi; injection Hs as <-.
    + eapply (sound_update σ t _ AtReturn _ ph Ready Ht Hall Halone);
        destruct ph; logger_side.
    + eapply (sound_update σ t _ (AtStore _) _ ph Made Ht Hall Halone);
        destruct ph; logger_side.
  - injection Hs as <-.
    eapply (sound_update σ t _ AtInitialize _ ph Stored Ht Hall Halone);
      destruct ph; logger_side.
  - destruct (Logger_instance (lclass σ)) eqn:Hi; [|discriminate].
    injection Hs as <-.
    eapply (sound_update σ t _ AtReturn _ ph Ready Ht Hall Halone);
      destruct ph; logger_side.
    match goal with H : initialized _ = [] |- _ => by rewrite H end.
  - injection Hs as <-.
    eapply (sound_update σ t _ (AtRelease _) _ ph ph Ht Hall Halone);
      destruct ph; logger_side.
  - injection Hs as <-.
    eapply (sound_update σ t _ (Got _) _ ph ph Ht Hall Halone);
      destruct ph; logger_side.
  - discriminate.
Qed.

Lemma sound_run (tr : list nat) (σ σ' : lsys) :
  sound σ -> lrun σ tr = Some σ' -> sound σ'.
Proof.
  revert σ. induction tr as [|t tr IH]; intros σ Hs H; simpl in H.
  - by injection H as <-.
  - destruct (lstep σ t) as [σ1|] eqn:H1; [|discriminate].
    eauto using sound_step.
Qed.

(** X14. The logger is a singleton, also between threads.  Let any number
    of threads call [Logger.get_instance()] or [Logger()], their steps
    interleaved in any way.  Every call that has returned has returned the
    same object, the first one made, and never [None]; no second object is
    ever made, and [_initialize] runs at most once, on that object. *)
Theorem logger_singleton (es : list entry) (tr : list nat) (σ : lsys) :
  lrun (linit es) tr = Some σ ->
  (forall (t : nat) (r : option nat),
      lthreads σ !! t = Some (Got r) -> r = Some 0%nat) /\
  (objects (lclass σ) <= 1)%nat /\
  (initialized (lclass σ) = [] \/ initialized (lclass σ) = [0%nat]).
Proof.
  intros Hrun.
  destruct (sound_run _ _ _ (sound_init es) Hrun) as (ph & Hph & Hall & _).
  split; [|destruct ph; simpl in Hph; intuition lia].
  intros t r Ht. destruct (Hall _ _ Ht) as [Ha _].
  destruct ph; simpl in Ha; try discriminate;
    by apply bool_decide_eq_true in Ha.
Qed.

(** One thread through the constructor, one through [get_instance], the
    second starting only after the first has stored the object. *)
Lemma logger_singleton_witness :
  let es := [ViaConstructor; ViaGetInstance] in
  let tr := [0; 0; 0; 1; 0; 1; 0; 0]%nat in
  let σ := {| lclass := {| Logger_instance := Some 0%nat;
                           Logger_lock := false;
                           objects := 1; initialized := [0%nat] |};
              lthreads := [Got (Some 0%nat); Got (Some 0%nat)] |} in
  lrun (linit es) tr = Some σ /\
  (forall (t : nat) (r : option nat),
      lthreads σ !! t = Some (Got r) -> r = Some 0%nat) /\
  (objects (lclass σ) <= 1)%nat /\
  (initialized (lclass σ) = [] \/ initialized (lclass σ) = [0%nat]).
Proof.
  intros es tr σ. split; [reflexivity|].
  apply (logger_singleton es tr σ). reflexivity.
Defined.

(** [get_instance] does not take the lock: a thread can be handed the
    logger while the thread that made it has not yet run [_initialize]. *)
Lemma logger_handed_out_early :
  exists σ : lsys,
    lrun (linit [ViaConstructor; ViaGetInstance]) [0; 0; 0; 1; 1]%nat = Some σ /\
    lthreads σ !! 1%nat = Some (Got (Some 0%nat)) /\
    initialized (lclass σ) = [].
Proof.
  eexists. split; [reflexivity|]. split; reflexivity.
Qed.

(** * The counters and the threads *)

(** X15. The counters count the threads.  In every state that the threads
    reach from a new lock, [active_readers] is the number of threads
    between [start_read] and [end_read], [waiting_readers] and
    [waiting_writers] are the numbers of threads inside [start_read] and
    inside [start_write], and [is_writing] is true exactly when some thread
    is between [start_write] and [end_write]. *)
Theorem counters_count_threads (n : nat) (tr : list (nat * action)) (σ : sys) :
  run (init_sys n) tr = Some σ ->
  active_readers (sys_lock σ) = count_pc Reading (sys_threads σ) /\
  waiting_readers (sys_lock σ) = count_pc WaitingToRead (sys_threads σ) /\
  waiting_writers (sys_lock σ) = count_pc WaitingToWrite (sys_threads σ) /\
  (is_writing (sys_lock σ) = true <->
   exists t : nat, sys_threads σ !! t = Some Writing).
Proof.
  intros Hrun.
  pose proof (linked_run _ _ _ (linked_init n) Hrun) as [Ha Hwr Hww Hw _].
  repeat (split; [assumption|]). split.
  - intros Hi. rewrite Hi in Hw. apply count_pc_pos. lia.
  - intros [t Ht]. apply count_pc_lookup in Ht.
    destruct (is_writing (sys_lock σ)); [reflexivity|lia].
Qed.

Lemma counters_count_threads_witness :
  let tr := [(0%nat, EnterRead); (1%nat, EnterRead); (0%nat, AcquireRead);
             (1%nat, AcquireRead); (2%nat, EnterWrite)] in
  let σ := {| sys_lock := {| active_readers := 2; waiting_readers := 0;
                             is_writing := false; waiting_writers := 1;
                             shared_resource := 0 |};
              sys_threads := [Reading; Reading; WaitingToWrite] |} in
  run (init_sys 3) tr = Some σ /\
  active_readers (sys_lock σ) = count_pc Reading (sys_threads σ) /\
  waiting_readers (sys_lock σ) = count_pc WaitingToRead (sys_threads σ) /\
  waiting_writers (sys_lock σ) = count_pc WaitingToWrite (sys_threads σ) /\
  (is_writing (sys_lock σ) = true <->
   exists t : nat, sys_threads σ !! t = Some Writing).
Proof.
  intros tr σ. split; [reflexivity|].
  apply (counters_count_threads 3 tr σ). reflexivity.
Defined.
